(** * CSPT_tool/extract-paths.js: a shallow embedding and its properties

    The script scans JavaScript files for route-like string literals with
    path parameters, writes the templates and the URLs obtained by
    substituting [magun4], [magun4_1], ... for the parameters, and in a
    second mode canonicalises the query strings of a list of URLs.

    JavaScript strings are sequences of UTF-16 code units; they are modelled
    as lists of code units.  The regular expressions of the script carry no
    [u] flag, so they too work on code units. *)

From Stdlib Require Import Ascii String Numbers.DecimalString.
From Stdlib Require Import NArith Arith Bool Lia List.
From Stdlib Require Import Sorting.Sorted Sorting.Permutation Sorting.Mergesort.
From Stdlib Require DecimalNat DecimalFacts.
Import ListNotations.

Local Open Scope list_scope.

(** ** Strings *)

Definition char := N.
Definition jsstring := list char.

(** The code unit of an ASCII character and the string of an ASCII literal. *)
Definition ch (a : ascii) : char := N_of_ascii a.
Definition u (s : string) : jsstring := map ch (list_ascii_of_string s).

Definition char_eqb (a b : char) : bool := N.eqb a b.

Fixpoint str_eqb (a b : jsstring) : bool :=
  match a, b with
  | [], [] => true
  | x :: a', y :: b' => char_eqb x y && str_eqb a' b'
  | _, _ => false
  end.

(** [a < b] on strings: code units compared from the left, a proper prefix
    is smaller.  This is also the order of [Array.prototype.sort()] without
    a comparator. *)
Fixpoint str_ltb (a b : jsstring) : bool :=
  match a, b with
  | [], [] => false
  | [], _ :: _ => true
  | _ :: _, [] => false
  | x :: a', y :: b' =>
      if N.ltb x y then true else if N.ltb y x then false else str_ltb a' b'
  end.

Definition str_leb (a b : jsstring) : bool := negb (str_ltb b a).

(** [s.startsWith(p)] *)
Fixpoint startsWith (s p : jsstring) {struct p} : bool :=
  match p, s with
  | [], _ => true
  | _ :: _, [] => false
  | y :: p', x :: s' => char_eqb x y && startsWith s' p'
  end.

(** [s.includes(p)] *)
Fixpoint includes (s p : jsstring) : bool :=
  startsWith s p ||
  match s with
  | [] => false
  | _ :: s' => includes s' p
  end.

(** [s.endsWith(p)] *)
Definition endsWith (s p : jsstring) : bool :=
  startsWith (rev s) (rev p).

(** [a.join(sep)] *)
Fixpoint join (sep : jsstring) (a : list jsstring) : jsstring :=
  match a with
  | [] => []
  | [x] => x
  | x :: rest => x ++ sep ++ join sep rest
  end.

(** Decimal rendering of a number inside a template literal. *)
Definition decimal (n : nat) : jsstring :=
  u (NilZero.string_of_uint (Nat.to_uint n)).

(** ** Character classes *)

Definition in_range (lo hi c : char) : bool := N.leb lo c && N.leb c hi.
Definition is_lower (c : char) : bool := in_range (ch "a") (ch "z") c.
Definition is_upper (c : char) : bool := in_range (ch "A") (ch "Z") c.
Definition is_digit (c : char) : bool := in_range (ch "0") (ch "9") c.
Definition is_letter (c : char) : bool := is_lower c || is_upper c.
Definition is_alnum (c : char) : bool := is_letter c || is_digit c.
Definition is_ch (a : ascii) (c : char) : bool := char_eqb c (ch a).

(** The three quote characters: single quote, double quote (code unit 34)
    and backtick. *)
Definition dquote : char := 34%N.
Definition is_quote (c : char) : bool :=
  is_ch "'" c || char_eqb c dquote || is_ch "`" c.

(** [[a-zA-Z0-9_]] *)
Definition is_ident (c : char) : bool := is_alnum c || is_ch "_" c.
(** [[a-zA-Z0-9\-_]] *)
Definition is_name (c : char) : bool := is_alnum c || is_ch "-" c || is_ch "_" c.
(** [[a-zA-Z0-9\-_/*]] *)
Definition is_seg (c : char) : bool := is_name c || is_ch "/" c || is_ch "*" c.
(** [[a-zA-Z0-9\-_/*:]] *)
Definition is_path (c : char) : bool := is_seg c || is_ch ":" c.

(** ** Regular expressions

    Every quantifier in the script applies to a single character class and
    there is one capture group at most, so a pattern is a list of items.
    The matcher is the backtracking matcher of ECMAScript: a greedy
    quantifier tries the longest repetition first, a lazy one the shortest,
    and the first alternative that lets the rest of the pattern match
    wins. *)

Inductive quant := One | Opt | Star | Plus | LazyStar.

Inductive item :=
| Atom (q : quant) (p : char -> bool)
| GroupOpen
| GroupClose
| AssertEnd.

Definition regex := list item.

(** The text of group 1 grows while the matcher is inside the group. *)
Definition push (inG : bool) (cap : jsstring) (c : char) : jsstring :=
  if inG then cap ++ [c] else cap.

Section Quantifiers.
Context {R : Type}.
Variable p : char -> bool.
Variable inG : bool.
Variable k : jsstring -> jsstring -> option R.

Fixpoint star_greedy (cap s : jsstring) : option R :=
  match s with
  | c :: s' =>
      if p c then
        match star_greedy (push inG cap c) s' with
        | Some r => Some r
        | None => k cap s
        end
      else k cap s
  | [] => k cap s
  end.

Fixpoint star_lazy (cap s : jsstring) : option R :=
  match k cap s with
  | Some r => Some r
  | None =>
      match s with
      | c :: s' => if p c then star_lazy (push inG cap c) s' else None
      | [] => None
      end
  end.
End Quantifiers.

(** [run r inG cap s] matches [r] at the start of [s]; the result is the
    text of group 1 and the input left after the match. *)
Fixpoint run (r : regex) (inG : bool) (cap s : jsstring)
  : option (jsstring * jsstring) :=
  match r with
  | [] => Some (cap, s)
  | GroupOpen :: r' => run r' true [] s
  | GroupClose :: r' => run r' false cap s
  | AssertEnd :: r' =>
      match s with
      | [] => run r' inG cap s
      | _ :: _ => None
      end
  | Atom One p :: r' =>
      match s with
      | c :: s' => if p c then run r' inG (push inG cap c) s' else None
      | [] => None
      end
  | Atom Opt p :: r' =>
      match s with
      | c :: s' =>
          if p c then
            match run r' inG (push inG cap c) s' with
            | Some x => Some x
            | None => run r' inG cap s
            end
          else run r' inG cap s
      | [] => run r' inG cap s
      end
  | Atom Star p :: r' => star_greedy p inG (run r' inG) cap s
  | Atom Plus p :: r' =>
      match s with
      | c :: s' =>
          if p c then star_greedy p inG (run r' inG) (push inG cap c) s'
          else None
      | [] => None
      end
  | Atom LazyStar p :: r' => star_lazy p inG (run r' inG) cap s
  end.

(** The successive matches of a pattern over a string, with the code units
    between them.  A match of [n] code units found at a position moves
    [lastIndex] past it: the next [n - 1] positions are not tried.  None of
    the patterns of the script matches the empty string (lemmas
    [patterns_consume] and [run_lt]). *)
Inductive piece :=
| Gap (c : char)
| Hit (whole group1 : jsstring).

Fixpoint pieces (r : regex) (s : jsstring) (skip : nat) : list piece :=
  match s with
  | [] => []
  | c :: s' =>
      match skip with
      | S n => pieces r s' n
      | O =>
          match run r false [] s with
          | Some (g, rest) =>
              let w := firstn (length s - length rest) s in
              Hit w g :: pieces r s' (length w - 1)
          | None => Gap c :: pieces r s' 0
          end
      end
  end.

(** [re.test(s)] for a pattern without a leading [^]. *)
Definition is_hit (x : piece) : bool :=
  match x with Hit _ _ => true | Gap _ => false end.
Definition test (r : regex) (s : jsstring) : bool :=
  existsb is_hit (pieces r s 0).

(** [re.test(s)] for a pattern with a leading [^] (no [m] flag): position 0
    only. *)
Definition test_at_start (r : regex) (s : jsstring) : bool :=
  match run r false [] s with Some _ => true | None => false end.

(** [s.replace(re, by)] for a pattern without the [g] flag: the first match
    is replaced. *)
Fixpoint replace_first_in (x : list piece) (by_ : jsstring) : jsstring :=
  match x with
  | [] => []
  | Gap c :: x' => c :: replace_first_in x' by_
  | Hit w _ :: x' =>
      by_ ++ flat_map (fun y => match y with Gap c => [c] | Hit w' _ => w' end) x'
  end.
Definition replace_first (r : regex) (by_ s : jsstring) : jsstring :=
  replace_first_in (pieces r s 0) by_.

(** [s.replace(re, callback)] for a pattern with the [g] flag: every match
    is replaced by what the callback returns; the callback may keep state
    (here, the counter it closes over). *)
Fixpoint replace_all_in {St : Type} (f : St -> jsstring * St)
    (x : list piece) (st : St) : jsstring :=
  match x with
  | [] => []
  | Gap c :: x' => c :: replace_all_in f x' st
  | Hit _ _ :: x' =>
      let (v, st') := f st in v ++ replace_all_in f x' st'
  end.
Definition replace_all {St : Type} (r : regex) (f : St -> jsstring * St)
    (st : St) (s : jsstring) : jsstring :=
  replace_all_in f (pieces r s 0) st.

(** ** [extractPaths] *)

(** A [Set] of strings keeps its elements in insertion order. *)
Definition Set_has (s : list jsstring) (x : jsstring) : bool :=
  existsb (str_eqb x) s.
Definition Set_add (s : list jsstring) (x : jsstring) : list jsstring :=
  if Set_has s x then s else s ++ [x].

(** [/Q(\/[a-zA-Z0-9\-_/*]*\/:[a-zA-Z0-9\-_]+[a-zA-Z0-9\-_/*:]*?)Q/g], where
    [Q] stands for the class of the three quote characters. *)
Definition pathRegex : regex :=
  [ Atom One is_quote; GroupOpen;
    Atom One (is_ch "/"); Atom Star is_seg;
    Atom One (is_ch "/"); Atom One (is_ch ":"); Atom Plus is_name;
    Atom LazyStar is_path;
    GroupClose; Atom One is_quote ].

(** [/\/:[a-zA-Z][a-zA-Z0-9\-_]*/] *)
Definition paramNameRegex : regex :=
  [ Atom One (is_ch "/"); Atom One (is_ch ":"); Atom One is_letter;
    Atom Star is_name ].

(** [/\/\*$/] *)
Definition wildcardRegex : regex :=
  [ Atom One (is_ch "/"); Atom One (is_ch "*"); AssertEnd ].

(** The validation of one candidate, in the order of the source. *)
Definition valid_path (path : jsstring) : bool :=
  startsWith path (u "/") &&
  includes path (u "/:") &&
  negb (includes path (u " ")) &&
  negb (includes path (u "(")) &&
  negb (includes path (u ")")) &&
  negb (includes path (u "[")) &&
  negb (includes path (u "]")) &&
  negb (includes path (u "\")) &&
  negb (includes path (u "?!")) &&
  negb (includes path (u "|")) &&
  (2 <? length path) &&
  (length path <? 200) &&
  test paramNameRegex path.

Definition extract_step (paths : list jsstring) (m : piece) : list jsstring :=
  match m with
  | Gap _ => paths
  | Hit _ path =>
      if valid_path path then
        let cleanPath := replace_first wildcardRegex (u "/*") path in
        Set_add paths cleanPath
      else paths
  end.

Definition extractPaths (content : jsstring) : list jsstring :=
  fold_left extract_step (pieces pathRegex content 0) [].

(** ** [replacePaths] *)

(** [/:([a-zA-Z0-9_]+)/g] *)
Definition paramRegex : regex :=
  [ Atom One (is_ch ":"); GroupOpen; Atom Plus is_ident; GroupClose ].

(** [/\/$/] *)
Definition trailingSlashRegex : regex :=
  [ Atom One (is_ch "/"); AssertEnd ].

(** [paramIndex === 0 ? 'magun4' : `magun4_${paramIndex}`] *)
Definition placeholder (paramIndex : nat) : jsstring :=
  if paramIndex =? 0 then u "magun4" else u "magun4_" ++ decimal paramIndex.

(** The callback of [replacePaths]: the value for the current index, and
    the index incremented. *)
Definition next_param (paramIndex : nat) : jsstring * nat :=
  (placeholder paramIndex, S paramIndex).

Definition replacePaths (pathStr domain : jsstring) : jsstring :=
  let replaced := replace_all paramRegex next_param 0 pathStr in
  let withoutWildcard := replace_first wildcardRegex [] replaced in
  let cleanDomain := replace_first trailingSlashRegex [] domain in
  let cleanPath :=
    if startsWith withoutWildcard (u "/") then withoutWildcard
    else u "/" ++ withoutWildcard in
  cleanDomain ++ cleanPath.

(** ** Sorting

    [Array.prototype.sort()] without a comparator orders strings by [<] on
    their code units.  Any correct sort returns the same array for this
    total order; merge sort stands for the engine's algorithm. *)

Lemma str_ltb_irrefl (a : jsstring) : str_ltb a a = false.
Proof.
  induction a as [|x a IH]; simpl; [reflexivity|].
  rewrite N.ltb_irrefl. exact IH.
Qed.

Lemma str_ltb_asym (a b : jsstring) : str_ltb a b = true -> str_ltb b a = false.
Proof.
  revert b; induction a as [|x a IH]; intros [|y b]; simpl; try easy.
  destruct (N.ltb_spec x y), (N.ltb_spec y x); try easy; try lia.
  apply IH.
Qed.

Module StrOrder <: Orders.TotalLeBool.
Definition t := jsstring.
Definition leb := str_leb.
Lemma leb_total (a b : t) : leb a b = true \/ leb b a = true.
Proof.
  unfold leb, str_leb.
  destruct (str_ltb a b) eqn:E.
  - left. now rewrite (str_ltb_asym _ _ E).
  - now right.
Qed.
End StrOrder.

Module StrSort := Sort StrOrder.

Definition sort (a : list jsstring) : list jsstring := StrSort.sort a.

(** ** The runtime: console, files written, process exit, exceptions *)

Record world := mkWorld {
  stdout : list jsstring;
  stderr : list jsstring;
  written : list (jsstring * jsstring)
}.

Definition world0 : world := mkWorld [] [] [].

(** How a computation ends: with a value, with an exception on its way up,
    by [process.exit], or (in the model only) with its recursion budget
    used up. *)
Inductive outcome (A : Type) :=
| Done (a : A)
| Thrown (message : jsstring)
| Exited (code : nat)
| OutOfFuel.
Arguments Done {A} a.
Arguments Thrown {A} message.
Arguments Exited {A} code.
Arguments OutOfFuel {A}.

Definition M (A : Type) : Type := world -> outcome A * world.

Definition ret {A : Type} (a : A) : M A := fun w => (Done a, w).

Definition bind {A B : Type} (c : M A) (k : A -> M B) : M B :=
  fun w =>
    match c w with
    | (Done a, w') => k a w'
    | (Thrown m, w') => (Thrown m, w')
    | (Exited n, w') => (Exited n, w')
    | (OutOfFuel, w') => (OutOfFuel, w')
    end.

Notation "x <- c ;; k" := (bind c (fun x => k))
  (at level 61, c at next level, right associativity).
Notation "c ;; k" := (bind c (fun _ => k))
  (at level 61, right associativity).

Definition console_log (line : jsstring) : M unit :=
  fun w => (Done tt, mkWorld (stdout w ++ [line]) (stderr w) (written w)).

Definition console_error (line : jsstring) : M unit :=
  fun w => (Done tt, mkWorld (stdout w) (stderr w ++ [line]) (written w)).

(** What a call of [fs.writeFileSync] that returns leaves behind: the
    file with its content. *)
Definition file_written (name content : jsstring) : M unit :=
  fun w => (Done tt, mkWorld (stdout w) (stderr w) (written w ++ [(name, content)])).

Definition process_exit {A : Type} (code : nat) : M A :=
  fun w => (Exited code, w).

(** [try { body } catch (error) { handler(error.message) }] *)
Definition try_catch {A : Type} (body : M A) (handler : jsstring -> M A) : M A :=
  fun w =>
    match body w with
    | (Thrown m, w') => handler m w'
    | r => r
    end.

(** What a call into [fs] gives: a value, or an exception with its
    message. *)
Inductive result (A : Type) :=
| Ok (a : A)
| Err (message : jsstring).
Arguments Ok {A} a.
Arguments Err {A} message.

Definition lift {A : Type} (r : result A) : M A :=
  fun w => match r with Ok a => (Done a, w) | Err m => (Thrown m, w) end.

(** The exit status of the process: 0 when the script runs to its end, the
    argument of [process.exit], 1 for an uncaught exception. *)
Definition exit_status (o : outcome unit) : option nat :=
  match o with
  | Done _ => Some 0
  | Thrown _ => Some 1
  | Exited n => Some n
  | OutOfFuel => None
  end.

(** ** [parseArgs] *)

Record config := mkConfig {
  jsDir : option jsstring;
  domain : option jsstring;
  urlsFile : option jsstring
}.

(** A string is truthy when it is not empty; [null] and [undefined] are
    falsy. *)
Definition truthy (o : option jsstring) : bool :=
  match o with Some (_ :: _) => true | _ => false end.

(** The loop over [args]: a flag followed by a truthy argument takes both,
    anything else is stepped over. *)
Fixpoint parseArgs_from (args : list jsstring) (c : config) : config :=
  match args with
  | [] => c
  | a :: rest =>
      match rest with
      | v :: rest' =>
          if str_eqb a (u "-js") && truthy (Some v) then
            parseArgs_from rest' (mkConfig (Some v) (domain c) (urlsFile c))
          else if str_eqb a (u "-d") && truthy (Some v) then
            parseArgs_from rest' (mkConfig (jsDir c) (Some v) (urlsFile c))
          else if str_eqb a (u "-urls") && truthy (Some v) then
            parseArgs_from rest' (mkConfig (jsDir c) (domain c) (Some v))
          else parseArgs_from rest c
      | [] => c
      end
  end.

Definition parseArgs (args : list jsstring) : config :=
  parseArgs_from args (mkConfig None None None).

(** ** The [keyCounts] object

    [keyCounts] is a plain object created by [{}]: reading a property that
    the object does not own falls through to [Object.prototype].  The
    values the script stores are results of [... + 1], so numbers or
    strings. *)

Inductive prim :=
| PNumber (n : nat)
| PString (s : jsstring).

Inductive value :=
| VUndefined
| VPrim (p : prim)
| VObject (text : jsstring).

Definition object := list (jsstring * prim).

Fixpoint lookup {A : Type} (o : list (jsstring * A)) (k : jsstring) : option A :=
  match o with
  | [] => None
  | (k', v) :: o' => if str_eqb k k' then Some v else lookup o' k
  end.

(** What a function of the prototype turns into under [+]. *)
Definition native (name : string) : value :=
  VObject (u "function " ++ u name ++ u "() { [native code] }").

(** The properties of [Object.prototype]; [__proto__] is an accessor whose
    getter returns the prototype itself. *)
Definition ObjectPrototype : list (jsstring * value) :=
  [ (u "constructor", native "Object");
    (u "__defineGetter__", native "__defineGetter__");
    (u "__defineSetter__", native "__defineSetter__");
    (u "hasOwnProperty", native "hasOwnProperty");
    (u "__lookupGetter__", native "__lookupGetter__");
    (u "__lookupSetter__", native "__lookupSetter__");
    (u "isPrototypeOf", native "isPrototypeOf");
    (u "propertyIsEnumerable", native "propertyIsEnumerable");
    (u "toString", native "toString");
    (u "valueOf", native "valueOf");
    (u "__proto__", VObject (u "[object Object]"));
    (u "toLocaleString", native "toLocaleString") ].

(** [o[k]] *)
Definition get (o : object) (k : jsstring) : value :=
  match lookup o k with
  | Some p => VPrim p
  | None =>
      match lookup ObjectPrototype k with
      | Some v => v
      | None => VUndefined
      end
  end.

Fixpoint put (o : object) (k : jsstring) (p : prim) : object :=
  match o with
  | [] => [(k, p)]
  | (k', v) :: o' =>
      if str_eqb k k' then (k', p) :: o' else (k', v) :: put o' k p
  end.

(** [o[k] = p]: the setter of [__proto__] ignores a primitive; every other
    key becomes (or stays) a property of the object itself. *)
Definition set (o : object) (k : jsstring) (p : prim) : object :=
  if str_eqb k (u "__proto__") then o else put o k p.

(** [(v || 0) + 1]: [undefined], [0] and the empty string are falsy and
    give [0 + 1]; a number is added to; anything else is turned into a
    string and [1] is appended. *)
Definition or_zero_plus_one (v : value) : prim :=
  match v with
  | VUndefined => PNumber 1
  | VPrim (PNumber 0) => PNumber 1
  | VPrim (PString []) => PNumber 1
  | VPrim (PNumber n) => PNumber (n + 1)
  | VPrim (PString s) => PString (s ++ u "1")
  | VObject text => PString (text ++ u "1")
  end.

(** The number a string denotes when it is a run of decimal digits; any
    other string counts as [NaN] here.  The strings this script stores
    start with the text of a prototype property, so with [f] or with a
    bracket, and a numeric literal starts with neither. *)
Definition digit_value (c : char) : nat := N.to_nat (c - ch "0").
Definition StringToNumber (s : jsstring) : option nat :=
  match s with
  | [] => Some 0
  | _ :: _ =>
      if forallb is_digit s
      then Some (fold_left (fun n c => 10 * n + digit_value c) s 0)
      else None
  end.

(** How often [for (let i = 0; i < v; i++)] runs its body: a comparison
    with [NaN] is false. *)
Definition iterations (v : value) : nat :=
  match v with
  | VPrim (PNumber n) => n
  | VPrim (PString s) =>
      match StringToNumber s with Some n => n | None => 0 end
  | _ => 0
  end.

(** [Object.keys(o)].  The engine lists index-like keys first; the script
    sorts the array at once, and a sorted array does not depend on the order
    it was sorted from (lemma [sort_permutation]). *)
Definition Object_keys (o : object) : list jsstring := map fst o.

(** ** [URL] and [URLSearchParams] *)

Record URL := mkURL {
  origin : jsstring;
  pathname : jsstring;
  hash : jsstring;
  searchParams : list (jsstring * jsstring)
}.

(** UTF-8 of a string, lone surrogates read as U+FFFD. *)
Definition is_high_surrogate (c : char) : bool := in_range 55296%N 56319%N c.
Definition is_low_surrogate (c : char) : bool := in_range 56320%N 57343%N c.

Definition utf8_of_code_point (c : N) : list N :=
  if (c <? 128)%N then [c]
  else if (c <? 2048)%N then [192 + c / 64; 128 + c mod 64]%N
  else if (c <? 65536)%N then
    [224 + c / 4096; 128 + (c / 64) mod 64; 128 + c mod 64]%N
  else
    [240 + c / 262144; 128 + (c / 4096) mod 64;
     128 + (c / 64) mod 64; 128 + c mod 64]%N.

Fixpoint utf8 (s : jsstring) : list N :=
  match s with
  | [] => []
  | c :: s' =>
      if is_high_surrogate c then
        match s' with
        | d :: s'' =>
            if is_low_surrogate d
            then utf8_of_code_point (65536 + (c - 55296) * 1024 + (d - 56320))%N
                   ++ utf8 s''
            else utf8_of_code_point 65533%N ++ utf8 s'
        | [] => utf8_of_code_point 65533%N
        end
      else if is_low_surrogate c then utf8_of_code_point 65533%N ++ utf8 s'
      else utf8_of_code_point c ++ utf8 s'
  end.

Definition hex_digit (n : N) : char :=
  if (n <? 10)%N then (ch "0" + n)%N else (ch "A" + (n - 10))%N.

(** One byte in the application/x-www-form-urlencoded serialisation. *)
Definition urlencode_byte (b : N) : jsstring :=
  if is_alnum b || is_ch "*" b || is_ch "-" b || is_ch "." b || is_ch "_" b
  then [b]
  else if is_ch " " b then u "+"
  else [ch "%"; hex_digit (b / 16); hex_digit (b mod 16)].

Definition urlencode (s : jsstring) : jsstring :=
  flat_map urlencode_byte (utf8 s).

(** [params.toString()] *)
Definition URLSearchParams_toString (params : list (jsstring * jsstring))
  : jsstring :=
  join (u "&") (map (fun kv => urlencode (fst kv) ++ u "=" ++ urlencode (snd kv)) params).

(** ** [processUrlList]: one URL *)

(** [for (const [key] of entries) keyCounts[key] = (keyCounts[key] || 0) + 1] *)
Definition count_key (keyCounts : object) (key : jsstring) : object :=
  set keyCounts key (or_zero_plus_one (get keyCounts key)).

Definition count_keys (entries : list (jsstring * jsstring)) : object :=
  fold_left count_key (map fst entries) [].

(** [keysWithDupes]: every sorted key, as often as its count says. *)
Definition keysWithDupes_of (keyCounts : object) : list jsstring :=
  let sortedKeys := sort (Object_keys keyCounts) in
  flat_map (fun k => repeat k (iterations (get keyCounts k))) sortedKeys.

(** [canonParams]: the keys paired with [magun4], [magun4_1], ... by one
    running index. *)
Fixpoint inject (keys : list jsstring) (idx : nat) : list (jsstring * jsstring) :=
  match keys with
  | [] => []
  | k :: keys' => (k, placeholder idx) :: inject keys' (S idx)
  end.

Definition canonParams_of (entries : list (jsstring * jsstring))
  : list (jsstring * jsstring) :=
  inject (keysWithDupes_of (count_keys entries)) 0.

(** The body of the [try] block after [new URL(trimmed)] has returned:
    [None] stands for [continue]. *)
Definition canonicalUrl (urlObj : URL) : option jsstring :=
  let entries := searchParams urlObj in
  if length entries =? 0 then None
  else
    let canonSearch := URLSearchParams_toString (canonParams_of entries) in
    Some (origin urlObj ++ pathname urlObj
          ++ (if truthy (Some canonSearch) then u "?" ++ canonSearch else [])
          ++ hash urlObj).

(** ** Lines of the URL list *)

Definition LF : char := 10%N.
Definition CR : char := 13%N.

(** White space and line terminators, the code units [trim()] removes. *)
Definition is_space (c : char) : bool :=
  in_range 9%N 13%N c || N.eqb c 32%N || N.eqb c 160%N || N.eqb c 5760%N
  || in_range 8192%N 8202%N c || N.eqb c 8232%N || N.eqb c 8233%N
  || N.eqb c 8239%N || N.eqb c 8287%N || N.eqb c 12288%N || N.eqb c 65279%N.

Fixpoint trimStart (s : jsstring) : jsstring :=
  match s with
  | c :: s' => if is_space c then trimStart s' else s
  | [] => []
  end.

Definition trim (s : jsstring) : jsstring :=
  rev (trimStart (rev (trimStart s))).

(** [/\r?\n/] *)
Definition newlineRegex : regex :=
  [ Atom Opt (char_eqb CR); Atom One (char_eqb LF) ].

(** [s.split(re)] *)
Fixpoint split_in (x : list piece) (cur : jsstring) : list jsstring :=
  match x with
  | [] => [cur]
  | Gap c :: x' => split_in x' (cur ++ [c])
  | Hit _ _ :: x' => cur :: split_in x' []
  end.
Definition split (r : regex) (s : jsstring) : list jsstring :=
  split_in (pieces r s 0) [].

(** [/^https?:\/\//i]: with the [i] flag an ASCII letter matches in both
    cases. *)
Definition is_ci (lower upper : ascii) (c : char) : bool :=
  is_ch lower c || is_ch upper c.
Definition httpRegex : regex :=
  [ Atom One (is_ci "h" "H"); Atom One (is_ci "t" "T");
    Atom One (is_ci "t" "T"); Atom One (is_ci "p" "P");
    Atom Opt (is_ci "s" "S");
    Atom One (is_ch ":"); Atom One (is_ch "/"); Atom One (is_ch "/") ].

(** ** The functions that call into Node

    The file system and the libraries of Node are taken as given: [fs] as
    the answers its calls give ([Err] for a call that throws), [path.join],
    [path.basename] and the [URL] constructor as functions. *)

Section Node.

Variable existsSync : jsstring -> bool.
Variable readdirSync : jsstring -> result (list jsstring).
(** [fs.statSync(p).isDirectory()] *)
Variable statSync_isDirectory : jsstring -> result bool.
Variable readFileSync : jsstring -> result jsstring.
(** [fs.writeFileSync(name, content)]: [Err] when the file cannot be
    written and the call throws. *)
Variable writeFileSync : jsstring -> jsstring -> result unit.
Variable path_join : jsstring -> jsstring -> jsstring.
Variable path_basename : jsstring -> jsstring.
(** [new URL(s)]: [None] when the constructor throws. *)
Variable new_URL : jsstring -> option URL.

(** A call of [fs.writeFileSync] in the script: it throws what [fs]
    throws, and otherwise the file is there.  No call stands inside a
    [try]. *)
Definition write_file (name content : jsstring) : M unit :=
  lift (writeFileSync name content) ;; file_written name content.

(** *** [getAllJsFiles]

    The recursion follows the directory tree, whose depth nothing bounds
    (a link may lead back up), so the model counts the nesting down. *)
Fixpoint getAllJsFiles (fuel : nat) (dir : jsstring) : M (list jsstring) :=
  match fuel with
  | O => fun w => (OutOfFuel, w)
  | S fuel' =>
      if negb (existsSync dir) then
        console_error (u "Error: Directory " ++ dir ++ u " does not exist") ;;
        ret []
      else
        items <- lift (readdirSync dir) ;;
        (fix each (items files : list jsstring) : M (list jsstring) :=
           match items with
           | [] => ret files
           | item :: items' =>
               let fullPath := path_join dir item in
               isDirectory <- lift (statSync_isDirectory fullPath) ;;
               if isDirectory then
                 sub <- getAllJsFiles fuel' fullPath ;;
                 each items' (files ++ sub)
               else if endsWith item (u ".js") then
                 each items' (files ++ [fullPath])
               else each items' files
           end) items []
  end.

(** *** [processUrlList] *)

(** One pass of the loop over the lines; [output] is the [Set]. *)
Definition process_line (output : list jsstring) (line : jsstring)
  : M (list jsstring) :=
  let trimmed := trim line in
  if negb (truthy (Some trimmed)) then ret output
  else if negb (test_at_start httpRegex trimmed) then ret output
  else if negb (includes trimmed (u "?")) then ret output
  else
    try_catch
      (urlObj <- lift (match new_URL trimmed with
                       | Some x => Ok x
                       | None => Err (u "Invalid URL")
                       end) ;;
       match canonicalUrl urlObj with
       | None => ret output
       | Some finalUrl => ret (Set_add output finalUrl)
       end)
      (fun _ => ret output).

Fixpoint process_lines (lines : list jsstring) (output : list jsstring)
  : M (list jsstring) :=
  match lines with
  | [] => ret output
  | line :: lines' =>
      output' <- process_line output line ;;
      process_lines lines' output'
  end.

Definition processUrlList (filePath : jsstring) : M unit :=
  if negb (existsSync filePath) then
    console_error (u "Error: URLs file " ++ filePath ++ u " does not exist") ;;
    process_exit 1
  else
    text <- lift (readFileSync filePath) ;;
    let lines := split newlineRegex text in
    outArr <- process_lines lines [] ;;
    if length outArr =? 0 then
      console_log (u "No URLs with query parameters found in the provided list.")
    else
      write_file (u "CSPT_magun4_waymore.txt") (join [LF] outArr) ;;
      console_log (u "Created CSPT_magun4_waymore.txt with "
                   ++ decimal (length outArr) ++ u " URL(s)").

(** *** [main] *)

Definition done_line : jsstring := [LF; 10003%N] ++ u " Done!".

Definition showUsage : M unit :=
  console_log (u "Usage: cspt -js <js_files_directory> -d <domain>") ;;
  console_log (u "       cspt -urls <file_with_urls>") ;;
  console_log (u "Examples:") ;;
  console_log (u "  cspt -js ./JS_files -d https://example.com") ;;
  console_log (u "  cspt -urls Waymore.txt").

(** The body of the loop over the files: read, extract, add to the set. *)
Definition scan_file (allPaths : list jsstring) (file : jsstring)
  : M (list jsstring) :=
  try_catch
    (content <- lift (readFileSync file) ;;
     let paths := extractPaths content in
     if 0 <? length paths then
       console_log (u "Found " ++ decimal (length paths) ++ u " path(s) in "
                    ++ path_basename file) ;;
       ret (fold_left Set_add paths allPaths)
     else ret allPaths)
    (fun message =>
       console_error (u "Error reading " ++ file ++ u ": " ++ message) ;;
       ret allPaths).

Fixpoint scan_files (files : list jsstring) (allPaths : list jsstring)
  : M (list jsstring) :=
  match files with
  | [] => ret allPaths
  | file :: files' =>
      allPaths' <- scan_file allPaths file ;;
      scan_files files' allPaths'
  end.

(** What [main] does once the set of templates is complete. *)
Definition pathsArray_of (allPaths : list jsstring) : list jsstring :=
  sort allPaths.

Definition csptUrls_of (pathsArray : list jsstring) (domain : jsstring)
  : list jsstring :=
  fold_left Set_add (map (fun p => replacePaths p domain) pathsArray) [].

Definition write_results (allPaths : list jsstring) (domain : jsstring)
  : M unit :=
  if length allPaths =? 0 then
    console_log (u "No paths with parameters found!")
  else
    let pathsArray := pathsArray_of allPaths in
    write_file (u "paths.txt") (join [LF] pathsArray) ;;
    console_log ([LF] ++ u "Created paths.txt with "
                 ++ decimal (length pathsArray) ++ u " path(s)") ;;
    let csptUrls := csptUrls_of pathsArray domain in
    write_file (u "CSPT_magun4.txt") (join [LF] csptUrls) ;;
    console_log (u "Created CSPT_magun4.txt with "
                 ++ decimal (length csptUrls) ++ u " URL(s)") ;;
    console_log done_line.

Definition main (fuel : nat) (argv : list jsstring) : M unit :=
  let config := parseArgs argv in
  match urlsFile config with
  | Some (c :: f) =>
      console_log (u "Processing URL list: " ++ c :: f) ;;
      processUrlList (c :: f) ;;
      console_log done_line
  | _ =>
      match jsDir config, domain config with
      | Some (c :: d), Some (c' :: dom) =>
          console_log (u "Scanning JS files in: " ++ c :: d) ;;
          console_log (u "Domain: " ++ c' :: dom) ;;
          jsFiles <- getAllJsFiles fuel (c :: d) ;;
          console_log (u "Found " ++ decimal (length jsFiles) ++ u " JS file(s)") ;;
          allPaths <- scan_files jsFiles [] ;;
          write_results allPaths (c' :: dom)
      | _, _ => showUsage ;; process_exit 1
      end
  end.

End Node.

(** * Notions used in the statements

    The definitions above follow the source.  The ones below are what the
    properties are stated with: readings of the data in the words of the
    specification, and the file systems of the examples. *)

(** ** Matching *)

(** What a quantifier adds to group 1 when it consumes [a]. *)
Definition pushes (inG : bool) (cap a : jsstring) : jsstring :=
  if inG then cap ++ a else cap.

(** Every code unit of [a] is in the class [p]. *)
Definition all (p : char -> bool) (a : jsstring) : Prop :=
  Forall (fun c => p c = true) a.

(** The longest prefix of a class, and what follows it. *)
Fixpoint span (p : char -> bool) (s : jsstring) : jsstring * jsstring :=
  match s with
  | c :: s' =>
      if p c then let (a, rest) := span p s' in (c :: a, rest) else ([], s)
  | [] => ([], [])
  end.

Definition head_is (p : char -> bool) (s : jsstring) : bool :=
  match s with c :: _ => p c | [] => false end.

Definition piece_text (x : piece) : jsstring :=
  match x with Gap c => [c] | Hit w _ => w end.

(** An item that cannot match without consuming a code unit. *)
Definition must_consume (i : item) : bool :=
  match i with Atom One _ | Atom Plus _ => true | _ => false end.

Definition is_some {A : Type} (o : option A) : bool :=
  match o with Some _ => true | None => false end.

(** What replacing a pattern anchored at the end comes to: the string is
    copied until what is left is the suffix itself. *)
Fixpoint replace_suffix (suffix by_ s : jsstring) : jsstring :=
  match s with
  | [] => []
  | c :: s' =>
      if str_eqb s suffix then by_ else c :: replace_suffix suffix by_ s'
  end.

(** ** Templates *)

(** A template as the claims read it: a sequence of plain code units and
    of parameters [:name].  This follows the words of the specification
    and is compared with the code in the properties. *)
Inductive token :=
| Chr (c : char)
| Param (name : jsstring).

Definition token_text (t : token) : jsstring :=
  match t with Chr c => [c] | Param name => ch ":" :: name end.

Definition template_of (ts : list token) : jsstring := flat_map token_text ts.

Definition parameters (ts : list token) : list jsstring :=
  flat_map (fun t => match t with Chr _ => [] | Param name => [name] end) ts.

(** The template with its parameters replaced in order: the one with index
    [i] becomes [placeholder i]. *)
Fixpoint substituted (ts : list token) (i : nat) : jsstring :=
  match ts with
  | [] => []
  | Chr c :: ts' => c :: substituted ts' i
  | Param _ :: ts' => placeholder i ++ substituted ts' (S i)
  end.

(** The template with its parameters replaced, in order of appearance, by
    the values of a list. *)
Fixpoint fill (ts : list token) (values : list jsstring) : jsstring :=
  match ts with
  | [] => []
  | Chr c :: ts' => c :: fill ts' values
  | Param _ :: ts' =>
      match values with
      | v :: values' => v ++ fill ts' values'
      | [] => fill ts' []
      end
  end.

Definition starts_ident (ts : list token) : bool :=
  match ts with Chr c :: _ => is_ident c | _ => false end.

(** The reading is the one of the pattern when a parameter name is a
    non-empty run of identifier characters that no identifier character
    follows, and no plain colon stands before an identifier character. *)
Fixpoint well_formed (ts : list token) : bool :=
  match ts with
  | [] => true
  | Chr c :: ts' => negb (is_ch ":" c && starts_ident ts') && well_formed ts'
  | Param name :: ts' =>
      negb (length name =? 0) && forallb is_ident name
      && negb (starts_ident ts') && well_formed ts'
  end.

(** ** Order, sets and counting *)

Definition str_le (a b : jsstring) : Prop := str_leb a b = true.



(** The set of templates after the loop over the files, from what
    [extractPaths] returned for each file. *)
Definition collect (perFile : list (list jsstring)) (allPaths : list jsstring)
  : list jsstring :=
  fold_left (fun acc paths => fold_left Set_add paths acc) perFile allPaths.

(** What one file contributes: the paths extracted from its content, or
    nothing when it cannot be read. *)
Definition per_file (readFileSync : jsstring -> result jsstring)
    (file : jsstring) : list jsstring :=
  match readFileSync file with
  | Ok content => extractPaths content
  | Err _ => []
  end.

Definition str_dec : forall a b : jsstring, {a = b} + {a <> b} :=
  list_eq_dec N.eq_dec.

Definition occurrences (keys : list jsstring) (k : jsstring) : nat :=
  count_occ str_dec keys k.

Definition on_prototype (k : jsstring) : bool :=
  match lookup ObjectPrototype k with Some _ => true | None => false end.

(** [keyCounts] holds the number of occurrences of every key seen. *)
Definition counts (o : object) (keys : list jsstring) : Prop :=
  forall k,
    lookup o k =
    if occurrences keys k =? 0 then None
    else Some (PNumber (occurrences keys k)).

(** ** Lines and arguments *)

(** A prefix test that puts the case of ASCII letters aside. *)
Definition lower (c : char) : char := if is_upper c then (c + 32)%N else c.
Definition starts_with_ci (s prefix : jsstring) : bool :=
  startsWith (map lower s) prefix.

(** The lines of claim C7: blank once trimmed, without the scheme,
    without a question mark, refused by the [URL] constructor, or parsed
    to a URL without query entries. *)
Definition passed_over (new_URL : jsstring -> option URL) (line : jsstring)
  : Prop :=
  let trimmed := trim line in
  trimmed = []
  \/ (starts_with_ci trimmed (u "http://") = false
      /\ starts_with_ci trimmed (u "https://") = false)
  \/ ~ In (ch "?") trimmed
  \/ new_URL trimmed = None
  \/ exists urlObj, new_URL trimmed = Some urlObj /\ searchParams urlObj = [].

(** A string without a line break. *)
Definition no_break (x : jsstring) : Prop := ~ In LF x /\ ~ In CR x.

(** [parseArgs] stores truthy arguments only. *)
Definition unset_or_truthy (o : option jsstring) : Prop :=
  o = None \/ truthy o = true.

(** ** A file system for the examples

    A directory [/srv/js] that exists and lists one entry, [gone.js], a
    symbolic link whose target is missing: [readdirSync] names it, and
    [statSync], which follows links, throws. *)
Definition link_exists (p : jsstring) : bool := str_eqb p (u "/srv/js").
Definition link_readdir (p : jsstring) : result (list jsstring) :=
  if str_eqb p (u "/srv/js") then Ok [u "gone.js"]
  else Err (u "ENOENT: no such file or directory, scandir").
Definition link_stat (p : jsstring) : result bool :=
  if str_eqb p (u "/srv/js") then Ok true
  else Err (u "ENOENT: no such file or directory, stat").
Definition join_slash (a b : jsstring) : jsstring := a ++ u "/" ++ b.

(** ** Further notions: arguments, the walk, shapes and outputs *)

(** A value stored by [parseArgs] under a flag stands right after that flag
    in the arguments and is not empty. *)
Definition follows_flag (flag : jsstring) (args : list jsstring)
    (o : option jsstring) : Prop :=
  forall v, o = Some v ->
    v <> [] /\ exists pre post, args = pre ++ flag :: v :: post.

Definition is_flag (a : jsstring) : bool :=
  str_eqb a (u "-js") || str_eqb a (u "-d") || str_eqb a (u "-urls").

(** The loop over the entries of one directory in [getAllJsFiles], with the
    recursive call as a parameter. *)
Section EachItem.
Variable statSync_isDirectory : jsstring -> result bool.
Variable path_join : jsstring -> jsstring -> jsstring.
Variable descend : jsstring -> M (list jsstring).
Variable dir : jsstring.

Fixpoint each_item (items files : list jsstring) : M (list jsstring) :=
  match items with
  | [] => ret files
  | item :: items' =>
      let fullPath := path_join dir item in
      isDirectory <- lift (statSync_isDirectory fullPath) ;;
      if isDirectory then
        sub <- descend fullPath ;;
        each_item items' (files ++ sub)
      else if endsWith item (u ".js") then
        each_item items' (files ++ [fullPath])
      else each_item items' files
  end.
End EachItem.

(** A path the walk may return: an entry listed in some directory, whose
    name ends in [.js] and which [statSync] does not call a directory. *)
Definition listed_js
    (readdirSync : jsstring -> result (list jsstring))
    (statSync_isDirectory : jsstring -> result bool)
    (path_join : jsstring -> jsstring -> jsstring)
    (file : jsstring) : Prop :=
  exists dir item items,
    file = path_join dir item
    /\ readdirSync dir = Ok items /\ In item items
    /\ statSync_isDirectory (path_join dir item) = Ok false
    /\ endsWith item (u ".js") = true.

(** A computation that is quiet from [w] on: it writes no file, prints
    nothing to standard output, and standard error only grows. *)
Definition quiet {A : Type} (w : world) (r : outcome A * world) : Prop :=
  stdout (snd r) = stdout w
  /\ written (snd r) = written w
  /\ exists more, stderr (snd r) = stderr w ++ more.

(** What a template is apart from the names of its parameters. *)
Definition shape (ts : list token) : list (option char) :=
  map (fun t => match t with Chr c => Some c | Param _ => None end) ts.

(** A string that neither starts nor ends with white space. *)
Definition trimmed (s : jsstring) : Prop :=
  head_is is_space s = false /\ head_is is_space (rev s) = false.

(** The three files the script may write. *)
Definition output_names : list jsstring :=
  [ u "paths.txt"; u "CSPT_magun4.txt"; u "CSPT_magun4_waymore.txt" ].

(** The lines of a file: what stands between its line feeds. *)
Fixpoint lines (s : jsstring) : list jsstring :=
  match s with
  | [] => [[]]
  | c :: s' =>
      if char_eqb c LF then [] :: lines s'
      else match lines s' with
           | line :: rest => (c :: line) :: rest
           | [] => [[c]]
           end
  end.

(** The directories the walk from [dir] comes to: [dir] itself, and the
    entries of such a directory that [statSync] calls directories. *)
Inductive below
    (readdirSync : jsstring -> result (list jsstring))
    (statSync_isDirectory : jsstring -> result bool)
    (path_join : jsstring -> jsstring -> jsstring)
    (dir : jsstring) : jsstring -> Prop :=
| below_here : below readdirSync statSync_isDirectory path_join dir dir
| below_entry (d : jsstring) (items : list jsstring) (item : jsstring) :
    below readdirSync statSync_isDirectory path_join dir d ->
    readdirSync d = Ok items -> In item items ->
    statSync_isDirectory (path_join d item) = Ok true ->
    below readdirSync statSync_isDirectory path_join dir (path_join d item).

(** An exception of [fs] met on the walk from [dir]: the one of
    [readdirSync] on a directory the walk comes to, or the one of
    [statSync] on an entry listed there. *)
Definition fs_failure
    (existsSync : jsstring -> bool)
    (readdirSync : jsstring -> result (list jsstring))
    (statSync_isDirectory : jsstring -> result bool)
    (path_join : jsstring -> jsstring -> jsstring)
    (dir message : jsstring) : Prop :=
  exists d,
    below readdirSync statSync_isDirectory path_join dir d
    /\ existsSync d = true
    /\ (readdirSync d = Err message
        \/ exists items item,
             readdirSync d = Ok items /\ In item items
             /\ statSync_isDirectory (path_join d item) = Err message).

(** * Properties *)

(** ** Strings *)

Lemma char_eqb_eq (a b : char) : char_eqb a b = true <-> a = b.
Proof. apply N.eqb_eq. Qed.

Lemma str_eqb_eq (a b : jsstring) : str_eqb a b = true <-> a = b.
Proof.
  revert b; induction a as [|x a IH]; intros [|y b]; simpl; try easy.
  rewrite andb_true_iff, char_eqb_eq, IH.
  split; [intros [-> ->]; reflexivity | intros [= -> ->]; auto].
Qed.

Lemma str_eqb_refl (a : jsstring) : str_eqb a a = true.
Proof. now apply str_eqb_eq. Qed.

Lemma startsWith_spec (s p : jsstring) :
  startsWith s p = true <-> exists t, s = p ++ t.
Proof.
  revert s; induction p as [|y p IH]; intros s; simpl.
  - split; [intros _; now exists s | reflexivity].
  - destruct s as [|x s].
    + split; [discriminate | intros [t [=]]].
    + rewrite andb_true_iff, char_eqb_eq, IH. split.
      * intros [-> [t ->]]. now exists t.
      * intros [t [= -> ->]]. split; [reflexivity | now exists t].
Qed.

Lemma includes_spec (s p : jsstring) :
  includes s p = true <-> exists a b, s = a ++ p ++ b.
Proof.
  induction s as [|x s IH].
  - simpl. rewrite orb_false_r, startsWith_spec. split.
    + intros [t ->]. now exists [], t.
    + intros (a & b & E). destruct a; simpl in E.
      * now exists b.
      * discriminate.
  - cbn [includes]. rewrite orb_true_iff, startsWith_spec, IH. split.
    + intros [[t ->] | (a & b & ->)].
      * now exists [], t.
      * now exists (x :: a), b.
    + intros (a & b & E). destruct a as [|y a]; simpl in E.
      * left. now exists b.
      * right. injection E as -> ->. now exists a, b.
Qed.

Lemma includes_char (s : jsstring) (c : char) :
  includes s [c] = false -> ~ In c s.
Proof.
  intros H Hin. apply in_split in Hin as (a & b & ->).
  assert (includes (a ++ c :: b) [c] = true) as E
    by (apply includes_spec; now exists a, b).
  congruence.
Qed.

(** ** The matcher *)

Lemma pushes_cons inG cap c a :
  pushes inG (push inG cap c) a = pushes inG cap (c :: a).
Proof. destruct inG; simpl; [now rewrite <- app_assoc | reflexivity]. Qed.

Lemma pushes_nil inG cap : pushes inG cap [] = cap.
Proof. destruct inG; simpl; [apply app_nil_r | reflexivity]. Qed.

Section QuantifierFacts.
Context {R : Type}.
Variable p : char -> bool.
Variable inG : bool.
Variable k : jsstring -> jsstring -> option R.

(** A successful repetition consumed a run of the class and then the rest
    of the pattern matched. *)
Lemma star_greedy_inv (s cap : jsstring) (r : R) :
  star_greedy p inG k cap s = Some r ->
  exists a rest, s = a ++ rest /\ all p a /\ k (pushes inG cap a) rest = Some r.
Proof.
  revert cap; induction s as [|c s IH]; intros cap; simpl.
  - intros H. exists [], []. rewrite pushes_nil. repeat split; [constructor | exact H].
  - destruct (p c) eqn:Hc.
    + destruct (star_greedy p inG k (push inG cap c) s) as [r'|] eqn:E.
      * intros [= <-]. destruct (IH _ E) as (a & rest & -> & Ha & Hk).
        exists (c :: a), rest. rewrite <- pushes_cons.
        repeat split; [constructor; assumption | exact Hk].
      * intros H. exists [], (c :: s). rewrite pushes_nil.
        repeat split; [constructor | exact H].
    + intros H. exists [], (c :: s). rewrite pushes_nil.
      repeat split; [constructor | exact H].
Qed.

Lemma star_lazy_inv (s cap : jsstring) (r : R) :
  star_lazy p inG k cap s = Some r ->
  exists a rest, s = a ++ rest /\ all p a /\ k (pushes inG cap a) rest = Some r.
Proof.
  revert cap; induction s as [|c s IH]; intros cap; simpl.
  - destruct (k cap []) as [r'|] eqn:E; [|discriminate].
    intros [= <-]. exists [], []. rewrite pushes_nil.
    repeat split; [constructor | exact E].
  - destruct (k cap (c :: s)) as [r'|] eqn:E.
    + intros [= <-]. exists [], (c :: s). rewrite pushes_nil.
      repeat split; [constructor | exact E].
    + destruct (p c) eqn:Hc; [|discriminate].
      intros H. destruct (IH _ H) as (a & rest & -> & Ha & Hk).
      exists (c :: a), rest. rewrite <- pushes_cons.
      repeat split; [constructor; assumption | exact Hk].
Qed.
End QuantifierFacts.

Lemma span_app (p : char -> bool) (a rest : jsstring) :
  forallb p a = true -> head_is p rest = false -> span p (a ++ rest) = (a, rest).
Proof.
  intros Ha Hr. induction a as [|c a IH]; simpl in *.
  - destruct rest as [|d rest]; [reflexivity|]. simpl in Hr. simpl. now rewrite Hr.
  - apply andb_true_iff in Ha as [-> Ha]. now rewrite (IH Ha).
Qed.

Lemma span_spec (p : char -> bool) (s : jsstring) :
  s = fst (span p s) ++ snd (span p s)
  /\ forallb p (fst (span p s)) = true
  /\ head_is p (snd (span p s)) = false.
Proof.
  induction s as [|c s (IH1 & IH2 & IH3)]; simpl; [auto|].
  destruct (p c) eqn:Hc.
  - destruct (span p s) as [a rest]; simpl in *.
    rewrite Hc, IH2. repeat split; [now f_equal | assumption].
  - simpl. rewrite Hc. auto.
Qed.

(** When the rest of the pattern accepts everything, the greedy repetition
    takes the whole run. *)
Lemma star_greedy_last (p : char -> bool) (inG : bool) (cap s : jsstring) :
  star_greedy p inG (fun cap' s' => Some (cap', s')) cap s
  = Some (pushes inG cap (fst (span p s)), snd (span p s)).
Proof.
  revert cap; induction s as [|c s IH]; intros cap; simpl.
  - now rewrite pushes_nil.
  - destruct (p c) eqn:Hc.
    + rewrite IH. destruct (span p s) as [a rest]; simpl.
      now rewrite pushes_cons.
    + simpl. now rewrite pushes_nil.
Qed.

(** ** Matches over a string *)

Lemma pieces_skip (r : regex) (a rest : jsstring) :
  pieces r (a ++ rest) (length a) = pieces r rest 0.
Proof. induction a as [|c a IH]; simpl; [reflexivity | exact IH]. Qed.

(** Every match listed by [pieces] is a match of the pattern at some
    position of the string. *)
Lemma pieces_hit (r : regex) (s : jsstring) (skip : nat) (w g : jsstring) :
  In (Hit w g) (pieces r s skip) ->
  exists pre suf rest,
    s = pre ++ suf /\ run r false [] suf = Some (g, rest)
    /\ w = firstn (length suf - length rest) suf.
Proof.
  revert skip; induction s as [|c s IH]; intros skip; simpl; [easy|].
  assert (forall n, In (Hit w g) (pieces r s n) ->
    exists pre suf rest, c :: s = pre ++ suf
      /\ run r false [] suf = Some (g, rest)
      /\ w = firstn (length suf - length rest) suf) as Later.
  { intros n Hn. destruct (IH _ Hn) as (pre & suf & rest & -> & Hr & Hw).
    now exists (c :: pre), suf, rest. }
  destruct skip as [|n]; [|apply Later].
  destruct (run r false [] (c :: s)) as [[g' rest]|] eqn:E.
  - intros [[= <- <-] | Hin]; [|eapply Later; eassumption].
    exists [], (c :: s), rest. repeat split. exact E.
  - intros [[=] | Hin]. eapply Later; eassumption.
Qed.

(** A match never gives back input, and a pattern with an item that must
    consume a code unit never matches the empty string: the patterns of
    the script all have one, so [pieces] loses nothing of the string. *)
Lemma run_le (r : regex) (inG : bool) (cap s g rest : jsstring) :
  run r inG cap s = Some (g, rest) -> length rest <= length s.
Proof.
  revert inG cap s; induction r as [|i r IH]; intros inG cap s; cbn [run].
  - now intros [= _ ->].
  - destruct i as [[| | | |] p| | |].
    + destruct s as [|c s]; [discriminate|]. destruct (p c); [|discriminate].
      intros H. apply IH in H. cbn [length]. lia.
    + destruct s as [|c s]; [apply IH|]. destruct (p c); [|apply IH].
      destruct (run r inG (push inG cap c) s) as [x|] eqn:E; [|apply IH].
      intros [= ->]. apply IH in E. cbn [length]. lia.
    + intros H. apply star_greedy_inv in H as (a & s' & -> & _ & H).
      apply IH in H. rewrite length_app. lia.
    + destruct s as [|c s]; [discriminate|]. destruct (p c); [|discriminate].
      intros H. apply star_greedy_inv in H as (a & s' & -> & _ & H).
      apply IH in H. cbn [length]. rewrite length_app. lia.
    + intros H. apply star_lazy_inv in H as (a & s' & -> & _ & H).
      apply IH in H. rewrite length_app. lia.
    + apply IH.
    + apply IH.
    + destruct s; [apply IH | discriminate].
Qed.

Lemma run_lt (r : regex) (inG : bool) (cap s g rest : jsstring) :
  existsb must_consume r = true ->
  run r inG cap s = Some (g, rest) -> length rest < length s.
Proof.
  revert inG cap s; induction r as [|i r IH]; intros inG cap s; cbn [run existsb];
    [discriminate|].
  destruct i as [[| | | |] p| | |]; cbn [must_consume orb].
  - intros _. destruct s as [|c s]; [discriminate|].
    destruct (p c); [|discriminate].
    intros H. apply run_le in H. cbn [length]. lia.
  - intros Hc. destruct s as [|c s]; [now apply IH|].
    destruct (p c); [|now apply IH].
    destruct (run r inG (push inG cap c) s) as [x|] eqn:E; [|now apply IH].
    intros [= ->]. apply run_le in E. cbn [length]. lia.
  - intros Hc H. apply star_greedy_inv in H as (a & s' & -> & _ & H).
    apply IH in H; [|assumption]. rewrite length_app. lia.
  - intros _. destruct s as [|c s]; [discriminate|].
    destruct (p c); [|discriminate].
    intros H. apply star_greedy_inv in H as (a & s' & -> & _ & H).
    apply run_le in H. cbn [length]. rewrite length_app. lia.
  - intros Hc H. apply star_lazy_inv in H as (a & s' & -> & _ & H).
    apply IH in H; [|assumption]. rewrite length_app. lia.
  - apply IH.
  - apply IH.
  - intros Hc. destruct s; [now apply IH | discriminate].
Qed.

Lemma patterns_consume :
  Forall (fun r => existsb must_consume r = true)
    [ pathRegex; paramNameRegex; wildcardRegex; paramRegex;
      trailingSlashRegex; newlineRegex; httpRegex ].
Proof. repeat constructor. Qed.

Lemma pieces_text (r : regex) (s : jsstring) (skip : nat) :
  existsb must_consume r = true ->
  flat_map piece_text (pieces r s skip) = skipn skip s.
Proof.
  intros Hr. revert skip; induction s as [|c s IH]; intros skip.
  - now destruct skip.
  - destruct skip as [|n]; cbn [pieces skipn]; [|apply IH].
    destruct (run r false [] (c :: s)) as [[g rest]|] eqn:E.
    + pose proof (run_lt _ _ _ _ _ _ Hr E) as Hlt. cbn [length] in Hlt.
      cbn [flat_map piece_text]. rewrite IH.
      rewrite length_firstn, Nat.min_l by (cbn [length]; lia).
      cbn [length].
      destruct (S (length s) - length rest) as [|m] eqn:Em; [lia|].
      cbn [firstn Nat.sub app]. rewrite Nat.sub_0_r.
      f_equal. apply firstn_skipn.
    + cbn [flat_map piece_text app]. now rewrite IH.
Qed.

Lemma test_inv (r : regex) (s : jsstring) :
  test r s = true ->
  exists pre suf g rest, s = pre ++ suf /\ run r false [] suf = Some (g, rest).
Proof.
  unfold test. rewrite existsb_exists. intros ([c|w g] & Hin & Hx); [discriminate|].
  destruct (pieces_hit _ _ _ _ _ Hin) as (pre & suf & rest & -> & Hr & _).
  now exists pre, suf, g, rest.
Qed.

(** ** The patterns of [extractPaths] *)

Lemma is_ch_eq (a : ascii) (c : char) : is_ch a c = true <-> c = ch a.
Proof. apply char_eqb_eq. Qed.

(** A match of [pathRegex]: a quote, the captured candidate, a quote.  The
    two quotes are matched by two independent character classes. *)
Lemma run_pathRegex (s g rest : jsstring) :
  run pathRegex false [] s = Some (g, rest) ->
  exists q1 q2 a b c,
    s = q1 :: g ++ q2 :: rest
    /\ is_quote q1 = true /\ is_quote q2 = true
    /\ g = ch "/" :: a ++ ch "/" :: ch ":" :: b ++ c
    /\ all is_seg a /\ b <> [] /\ all is_name b /\ all is_path c.
Proof.
  unfold pathRegex. cbn [run].
  destruct s as [|q1 s]; [discriminate|].
  destruct (is_quote q1) eqn:Hq1; [|discriminate].
  destruct s as [|c1 s]; [discriminate|].
  destruct (is_ch "/" c1) eqn:Hc1; [|discriminate].
  apply is_ch_eq in Hc1 as ->.
  intros H. apply star_greedy_inv in H as (a & s1 & -> & Ha & H).
  cbn [run] in H.
  destruct s1 as [|c2 s1]; [discriminate|].
  destruct (is_ch "/" c2) eqn:Hc2; [|discriminate].
  apply is_ch_eq in Hc2 as ->.
  destruct s1 as [|c3 s1]; [discriminate|].
  destruct (is_ch ":" c3) eqn:Hc3; [|discriminate].
  apply is_ch_eq in Hc3 as ->.
  destruct s1 as [|c4 s1]; [discriminate|].
  destruct (is_name c4) eqn:Hc4; [|discriminate].
  apply star_greedy_inv in H as (b & s2 & -> & Hb & H).
  apply star_lazy_inv in H as (c & s3 & -> & Hc & H).
  cbn [run] in H.
  destruct s3 as [|q2 s3]; [discriminate|].
  destruct (is_quote q2) eqn:Hq2; [|discriminate].
  injection H as <- <-.
  exists q1, q2, a, (c4 :: b), c.
  cbn [push pushes app].
  repeat rewrite <- app_assoc. cbn [app].
  split; [reflexivity|].
  split; [assumption|]. split; [assumption|].
  split; [reflexivity|].
  split; [assumption|]. split; [discriminate|].
  split; [constructor; assumption | assumption].
Qed.

Lemma run_paramNameRegex (s g rest : jsstring) :
  run paramNameRegex false [] s = Some (g, rest) ->
  exists c n, s = ch "/" :: ch ":" :: c :: n ++ rest
    /\ is_letter c = true /\ all is_name n.
Proof.
  unfold paramNameRegex. cbn [run].
  destruct s as [|c1 s]; [discriminate|].
  destruct (is_ch "/" c1) eqn:Hc1; [|discriminate].
  apply is_ch_eq in Hc1 as ->.
  destruct s as [|c2 s]; [discriminate|].
  destruct (is_ch ":" c2) eqn:Hc2; [|discriminate].
  apply is_ch_eq in Hc2 as ->.
  destruct s as [|c s]; [discriminate|].
  destruct (is_letter c) eqn:Hc; [|discriminate].
  intros H. apply star_greedy_inv in H as (n & s1 & -> & Hn & H).
  cbn [run] in H. injection H as _ <-.
  now exists c, n.
Qed.

(** [/\/\*$/] matches the two code units [/*] at the very end only. *)
Lemma run_wildcardRegex (s : jsstring) :
  run wildcardRegex false [] s
  = if str_eqb s (u "/*") then Some ([], []) else None.
Proof.
  unfold wildcardRegex. cbn [run].
  destruct s as [|c1 s]; [reflexivity|].
  change (str_eqb (c1 :: s) (u "/*"))
    with (is_ch "/" c1 && str_eqb s [ch "*"]).
  destruct (is_ch "/" c1); [|reflexivity]. cbn [andb].
  destruct s as [|c2 s]; [reflexivity|].
  change (str_eqb (c2 :: s) [ch "*"]) with (is_ch "*" c2 && str_eqb s []).
  destruct (is_ch "*" c2); [|reflexivity]. cbn [andb push].
  destruct s; reflexivity.
Qed.

Lemma run_trailingSlashRegex (s : jsstring) :
  run trailingSlashRegex false [] s
  = if str_eqb s (u "/") then Some ([], []) else None.
Proof.
  unfold trailingSlashRegex. cbn [run].
  destruct s as [|c1 s]; [reflexivity|].
  change (str_eqb (c1 :: s) (u "/")) with (is_ch "/" c1 && str_eqb s []).
  destruct (is_ch "/" c1); [|reflexivity]. cbn [andb push].
  destruct s; reflexivity.
Qed.

Lemma replace_first_wildcard (by_ s : jsstring) :
  replace_first wildcardRegex by_ s = replace_suffix (u "/*") by_ s.
Proof.
  unfold replace_first. induction s as [|c s IH]; [reflexivity|].
  cbn [pieces replace_suffix]. rewrite run_wildcardRegex.
  destruct (str_eqb (c :: s) (u "/*")) eqn:E.
  - apply str_eqb_eq in E. injection E as -> ->. cbn. now rewrite app_nil_r.
  - cbn [replace_first_in]. now rewrite IH.
Qed.

Lemma replace_first_trailingSlash (by_ s : jsstring) :
  replace_first trailingSlashRegex by_ s = replace_suffix (u "/") by_ s.
Proof.
  unfold replace_first. induction s as [|c s IH]; [reflexivity|].
  cbn [pieces replace_suffix]. rewrite run_trailingSlashRegex.
  destruct (str_eqb (c :: s) (u "/")) eqn:E.
  - apply str_eqb_eq in E. injection E as -> ->. cbn. now rewrite app_nil_r.
  - cbn [replace_first_in]. now rewrite IH.
Qed.

(** Replacing a suffix by itself changes nothing: the clean-up of
    [extractPaths] is the identity. *)
Lemma replace_suffix_same (suffix s : jsstring) :
  replace_suffix suffix suffix s = s.
Proof.
  induction s as [|c s IH]; [reflexivity|]. cbn [replace_suffix].
  destruct (str_eqb (c :: s) suffix) eqn:E.
  - apply str_eqb_eq in E. now subst.
  - now rewrite IH.
Qed.

(** Removing a suffix: a string that ends with it loses it, once. *)
Lemma replace_suffix_app (suffix t : jsstring) :
  suffix <> [] -> replace_suffix suffix [] (t ++ suffix) = t.
Proof.
  intros Hne. induction t as [|c t IH].
  - destruct suffix as [|d suffix]; [easy|].
    cbn [app replace_suffix]. now rewrite str_eqb_refl.
  - cbn [app replace_suffix].
    destruct (str_eqb (c :: t ++ suffix) suffix) eqn:E.
    + apply str_eqb_eq in E. apply (f_equal (@length _)) in E.
      cbn [length] in E. rewrite length_app in E. lia.
    + now rewrite IH.
Qed.

Lemma replace_suffix_none (suffix by_ s : jsstring) :
  (forall t, s <> t ++ suffix) -> replace_suffix suffix by_ s = s.
Proof.
  induction s as [|c s IH]; intros H; [reflexivity|]. cbn [replace_suffix].
  destruct (str_eqb (c :: s) suffix) eqn:E.
  - apply str_eqb_eq in E. now destruct (H []).
  - rewrite IH; [reflexivity|]. intros t ->. now apply (H (c :: t)).
Qed.

(** ** [extractPaths] *)

Lemma Set_add_in (s : list jsstring) (x p : jsstring) :
  In p (Set_add s x) <-> In p s \/ p = x.
Proof.
  unfold Set_add, Set_has. destruct (existsb (str_eqb x) s) eqn:E.
  - split; [auto|]. intros [H | ->]; [assumption|].
    apply existsb_exists in E as (y & Hy & Exy).
    apply str_eqb_eq in Exy. now subst.
  - rewrite in_app_iff. simpl. intuition.
Qed.

(** The clean-up [path.replace(/\/\*$/, '/*')] returns its argument. *)
Lemma cleanPath_same (path : jsstring) :
  replace_first wildcardRegex (u "/*") path = path.
Proof. rewrite replace_first_wildcard. apply replace_suffix_same. Qed.

Lemma extract_steps_in (ms : list piece) (acc : list jsstring) (p : jsstring) :
  In p (fold_left extract_step ms acc) ->
  In p acc \/ exists w, In (Hit w p) ms /\ valid_path p = true.
Proof.
  revert acc; induction ms as [|m ms IH]; intros acc; cbn [fold_left]; [auto|].
  intros H. apply IH in H as [H | (w & Hin & Hv)].
  - destruct m as [c|w path]; cbn [extract_step] in H; [auto|].
    destruct (valid_path path) eqn:Hv; [|auto].
    rewrite cleanPath_same in H. apply Set_add_in in H as [H | ->]; [auto|].
    right. exists w. split; [now left | assumption].
  - right. exists w. split; [now right | assumption].
Qed.

(** Every extracted path is the group of a match of [pathRegex] somewhere
    in the content, and passed the validation. *)
Lemma extractPaths_in (content p : jsstring) :
  In p (extractPaths content) ->
  valid_path p = true /\
  exists pre suf rest,
    content = pre ++ suf /\ run pathRegex false [] suf = Some (p, rest).
Proof.
  intros H. apply extract_steps_in in H as [[] | (w & Hin & Hv)].
  split; [assumption|].
  destruct (pieces_hit _ _ _ _ _ Hin) as (pre & suf & rest & -> & Hr & _).
  now exists pre, suf, rest.
Qed.

Lemma is_path_chars (c : char) :
  is_path c = true ->
  is_letter c = true \/ is_digit c = true \/ c = ch "-" \/ c = ch "_"
  \/ c = ch "/" \/ c = ch "*" \/ c = ch ":".
Proof.
  unfold is_path, is_seg, is_name, is_alnum.
  rewrite !orb_true_iff, !is_ch_eq. tauto.
Qed.

Lemma all_app (p : char -> bool) (a b : jsstring) :
  all p a -> all p b -> all p (a ++ b).
Proof. intros; apply Forall_app; auto. Qed.

Lemma all_weaken (p q : char -> bool) (a : jsstring) :
  (forall c, p c = true -> q c = true) -> all p a -> all q a.
Proof. intros H; apply Forall_impl; exact H. Qed.

Lemma is_seg_path c : is_seg c = true -> is_path c = true.
Proof. unfold is_path; intros ->; reflexivity. Qed.

Lemma is_name_path c : is_name c = true -> is_path c = true.
Proof. unfold is_path, is_seg; intros ->; reflexivity. Qed.

Lemma extractPaths_chars (content p : jsstring) :
  In p (extractPaths content) -> all is_path p.
Proof.
  intros H. apply extractPaths_in in H as (_ & pre & suf & rest & _ & Hr).
  apply run_pathRegex in Hr
    as (q1 & q2 & a & b & c & _ & _ & _ & -> & Ha & _ & Hb & Hc).
  constructor; [reflexivity|]. apply all_app.
  - exact (all_weaken _ _ _ is_seg_path Ha).
  - constructor; [reflexivity|]. constructor; [reflexivity|].
    apply all_app; [exact (all_weaken _ _ _ is_name_path Hb) | exact Hc].
Qed.

(** C3. Every string returned by [extractPaths] starts with [/], contains
    [/:], is made of letters, digits, [-], [_], [/], [*] and [:] only,
    contains no space, parenthesis, bracket, backslash or pipe and not the
    sequence [?!], is longer than 2 and shorter than 200 code units, and
    contains [/:] followed by a letter and then by name characters. *)
Theorem extractPaths_shape (content p : jsstring) :
  In p (extractPaths content) ->
  (exists t, p = ch "/" :: t)
  /\ (exists a b, p = a ++ u "/:" ++ b)
  /\ Forall (fun c =>
        is_letter c = true \/ is_digit c = true \/ c = ch "-" \/ c = ch "_"
        \/ c = ch "/" \/ c = ch "*" \/ c = ch ":") p
  /\ (~ In (ch " ") p /\ ~ In (ch "(") p /\ ~ In (ch ")") p
      /\ ~ In (ch "[") p /\ ~ In (ch "]") p /\ ~ In (ch "\") p
      /\ ~ In (ch "|") p /\ ~ exists a b, p = a ++ u "?!" ++ b)
  /\ 2 < length p < 200
  /\ (exists a c n b,
        p = a ++ u "/:" ++ c :: n ++ b /\ is_letter c = true /\ all is_name n).
Proof.
  intros H. pose proof (extractPaths_chars _ _ H) as Hchars.
  apply extractPaths_in in H as (Hv & pre & suf & rest & _ & Hr).
  unfold valid_path in Hv. rewrite !andb_true_iff, !negb_true_iff in Hv.
  destruct Hv as ((((((((((((V1 & V2) & V3) & V4) & V5) & V6) & V7) & V8)
                      & V9) & V10) & V11) & V12) & V13).
  split.
  { apply startsWith_spec in V1 as [t ->]. now exists t. }
  split.
  { now apply includes_spec. }
  split.
  { apply Forall_impl with (P := fun c => is_path c = true);
      [exact is_path_chars | exact Hchars]. }
  split.
  { repeat split; try (apply includes_char; assumption).
    intros E. apply includes_spec in E. congruence. }
  split.
  { apply Nat.ltb_lt in V11, V12. lia. }
  apply test_inv in V13 as (a & suf' & g & rest' & -> & Hr').
  apply run_paramNameRegex in Hr' as (c & n & -> & Hc & Hn).
  now exists a, c, n, rest'.
Qed.

Lemma extractPaths_shape_witness :
  In (u "/download/:id") (extractPaths (u "app.get('/download/:id', handler);"))
  /\ 2 < length (u "/download/:id") < 200.
Proof.
  assert (In (u "/download/:id")
            (extractPaths (u "app.get('/download/:id', handler);"))) as H
    by (vm_compute; left; reflexivity).
  split; [exact H|].
  exact (proj1 (proj2 (proj2 (proj2 (proj2 (extractPaths_shape _ _ H)))))).
Defined.

(** C5, as the code has it.  Every extracted path stands in the content
    between two quote characters; the pattern has one character class for
    the opening quote and another for the closing one, and nothing makes
    the two equal. *)
Theorem extractPaths_between_quotes (content p : jsstring) :
  In p (extractPaths content) ->
  exists pre q1 q2 post,
    is_quote q1 = true /\ is_quote q2 = true
    /\ content = pre ++ q1 :: p ++ q2 :: post.
Proof.
  intros H. apply extractPaths_in in H as (_ & pre & suf & rest & -> & Hr).
  apply run_pathRegex in Hr as (q1 & q2 & _ & _ & _ & -> & Hq1 & Hq2 & _).
  now exists pre, q1, q2, rest.
Qed.

Lemma extractPaths_between_quotes_witness :
  In (u "/a/:b") (extractPaths (u "'/a/:b`"))
  /\ exists pre q1 q2 post,
       is_quote q1 = true /\ is_quote q2 = true
       /\ u "'/a/:b`" = pre ++ q1 :: u "/a/:b" ++ q2 :: post.
Proof.
  assert (In (u "/a/:b") (extractPaths (u "'/a/:b`"))) as H
    by (vm_compute; left; reflexivity).
  split; [exact H | exact (extractPaths_between_quotes _ _ H)].
Defined.

(** C5, as the claim states it, fails: a candidate opened by a single quote
    and closed by a backtick is extracted, and the content holds no
    occurrence of it between two equal quotes. *)
Lemma extractPaths_mixed_quotes :
  In (u "/a/:b") (extractPaths (u "'/a/:b`"))
  /\ ~ exists pre q post,
         is_quote q = true /\ u "'/a/:b`" = pre ++ q :: u "/a/:b" ++ q :: post.
Proof.
  split; [vm_compute; left; reflexivity|].
  intros (pre & q & post & _ & E).
  destruct pre as [|x pre].
  - cbn in E. injection E as E1 E2. subst q. discriminate E2.
  - apply (f_equal (@length _)) in E. cbn in E.
    rewrite length_app in E. cbn in E. lia.
Qed.

(** ** [replacePaths] *)

(** [/:([a-zA-Z0-9_]+)/g] at a position: a colon, then the longest run of
    identifier characters, which must not be empty. *)
Lemma run_paramRegex (s : jsstring) :
  run paramRegex false [] s =
  match s with
  | c :: d :: s' =>
      if is_ch ":" c && is_ident d
      then Some (d :: fst (span is_ident s'), snd (span is_ident s'))
      else None
  | _ => None
  end.
Proof.
  unfold paramRegex. cbn [run].
  destruct s as [|c s]; [reflexivity|].
  destruct (is_ch ":" c); [|now destruct s].
  destruct s as [|d s]; [reflexivity|].
  destruct (is_ident d); [|reflexivity]. cbn [andb push app].
  change (run [GroupClose] true) with (fun cap' s' : jsstring => Some (cap', s')).
  now rewrite star_greedy_last.
Qed.

Lemma run_paramRegex_none (c : char) (s : jsstring) :
  is_ch ":" c && head_is is_ident s = false ->
  run paramRegex false [] (c :: s) = None.
Proof.
  intros H. rewrite run_paramRegex. destruct s as [|d s]; [reflexivity|].
  cbn [head_is] in H. now rewrite H.
Qed.

Lemma run_paramRegex_some (d : char) (name rest : jsstring) :
  forallb is_ident (d :: name) = true -> head_is is_ident rest = false ->
  run paramRegex false [] (ch ":" :: (d :: name) ++ rest)
  = Some (d :: name, rest).
Proof.
  intros Hid Hrest. rewrite run_paramRegex. cbn [app].
  cbn [forallb] in Hid. apply andb_true_iff in Hid as [Hd Hid].
  replace (is_ch ":" (ch ":")) with true by reflexivity.
  rewrite Hd. cbn [andb]. now rewrite (span_app _ _ _ Hid Hrest).
Qed.

Lemma head_template (ts : list token) :
  head_is is_ident (template_of ts) = starts_ident ts.
Proof. destruct ts as [|[c|name] ts]; reflexivity. Qed.

Lemma substitute_tokens (ts : list token) (i : nat) :
  well_formed ts = true ->
  replace_all paramRegex next_param i (template_of ts) = substituted ts i.
Proof.
  unfold replace_all. revert i; induction ts as [|[c|name] ts IH]; intros i Hwf;
    [reflexivity| |]; cbn [well_formed] in Hwf.
  - apply andb_true_iff in Hwf as [Hc Hwf].
    apply negb_true_iff in Hc. rewrite <- head_template in Hc.
    change (template_of (Chr c :: ts)) with (c :: template_of ts).
    cbn [pieces]. rewrite (run_paramRegex_none _ _ Hc).
    cbn [replace_all_in substituted]. now rewrite IH.
  - rewrite !andb_true_iff in Hwf. destruct Hwf as (((Hne & Hid) & Hnext) & Hwf).
    destruct name as [|d name]; [discriminate|].
    apply negb_true_iff in Hnext. rewrite <- head_template in Hnext.
    change (template_of (Param (d :: name) :: ts))
      with (ch ":" :: (d :: name) ++ template_of ts).
    cbn [pieces]. rewrite (run_paramRegex_some _ _ _ Hid Hnext).
    replace (length (ch ":" :: (d :: name) ++ template_of ts)
             - length (template_of ts)) with (S (length (d :: name)))
      by (cbn [length app]; rewrite length_app; lia).
    cbn [firstn]. rewrite firstn_app, firstn_all, Nat.sub_diag.
    cbn [firstn]. rewrite app_nil_r.
    replace (length (ch ":" :: d :: name) - 1) with (length (d :: name))
      by (cbn [length]; lia).
    rewrite pieces_skip.
    cbn [replace_all_in next_param substituted]. now rewrite IH.
Qed.

(** Every string reads as a template in this way. *)
Lemma template_tokens (s : jsstring) :
  exists ts, well_formed ts = true /\ template_of ts = s.
Proof.
  remember (length s) as n eqn:Hn.
  revert s Hn; induction n as [n IH] using lt_wf_ind; intros s Hn.
  destruct s as [|c s]; [now exists []|].
  destruct (is_ch ":" c && head_is is_ident s) eqn:E.
  - apply andb_true_iff in E as [Hc Hh]. apply is_ch_eq in Hc as ->.
    destruct (span_spec is_ident s) as (Hs & Hall & Hrest).
    destruct (span is_ident s) as [name rest] eqn:Esp; cbn [fst snd] in *.
    destruct (IH (length rest)) with (s := rest) as (ts & Hwf & Hts);
      [subst; cbn [length]; rewrite length_app; lia | reflexivity |].
    exists (Param name :: ts). split.
    + cbn [well_formed]. rewrite Hall, Hwf, <- head_template, Hts, Hrest.
      destruct name as [|d name]; [|reflexivity].
      cbn [app] in Hs. subst rest. congruence.
    + change (template_of (Param name :: ts))
        with (ch ":" :: name ++ template_of ts).
      now rewrite Hts, Hs.
  - destruct (IH (length s)) with (s := s) as (ts & Hwf & Hts);
      [subst; cbn [length]; lia | reflexivity |].
    exists (Chr c :: ts). split.
    + cbn [well_formed]. now rewrite Hwf, <- head_template, Hts, E.
    + change (template_of (Chr c :: ts)) with (c :: template_of ts).
      now rewrite Hts.
Qed.

(** [replacePaths] in terms of what its three anchored replacements come
    to. *)
Lemma replacePaths_eq (pathStr domain : jsstring) :
  replacePaths pathStr domain =
  let withoutWildcard :=
    replace_suffix (u "/*") [] (replace_all paramRegex next_param 0 pathStr) in
  replace_suffix (u "/") [] domain
  ++ (if startsWith withoutWildcard (u "/") then withoutWildcard
      else u "/" ++ withoutWildcard).
Proof.
  unfold replacePaths.
  now rewrite replace_first_wildcard, replace_first_trailingSlash.
Qed.

Lemma substituted_fill (ts : list token) (i : nat) :
  substituted ts i = fill ts (map placeholder (seq i (length (parameters ts)))).
Proof.
  revert i; induction ts as [|[c|name] ts IH]; intros i; [reflexivity| |].
  - cbn [substituted fill]. now rewrite IH.
  - change (parameters (Param name :: ts)) with (name :: parameters ts).
    cbn [substituted fill length seq map]. now rewrite IH.
Qed.

Lemma substituted_app (a b : list token) (i : nat) :
  substituted (a ++ b) i
  = substituted a i ++ substituted b (i + length (parameters a)).
Proof.
  revert i; induction a as [|[c|name] a IH]; intros i.
  - cbn. now rewrite Nat.add_0_r.
  - cbn [app substituted]. rewrite IH. reflexivity.
  - change (parameters (Param name :: a)) with (name :: parameters a).
    cbn [app substituted length]. rewrite IH, <- app_assoc.
    now rewrite Nat.add_succ_comm.
Qed.

Lemma substituted_chars (s : jsstring) (i : nat) :
  substituted (map Chr s) i = s.
Proof. induction s as [|c s IH]; cbn; [reflexivity | now rewrite IH]. Qed.

Lemma template_chars (s : jsstring) : template_of (map Chr s) = s.
Proof. induction s as [|c s IH]; cbn; [reflexivity | now f_equal]. Qed.

Lemma template_app (a b : list token) :
  template_of (a ++ b) = template_of a ++ template_of b.
Proof. apply flat_map_app. Qed.

Lemma parameters_app (a b : list token) :
  parameters (a ++ b) = parameters a ++ parameters b.
Proof. apply flat_map_app. Qed.

Lemma well_formed_app (a b : list token) :
  well_formed a = true -> well_formed b = true -> starts_ident b = false ->
  well_formed (a ++ b) = true.
Proof.
  intros Ha Hb Hs. induction a as [|t a IH]; [assumption|].
  assert (starts_ident (a ++ b) = true -> starts_ident a = true) as Hst.
  { destruct a as [|t' a]; [cbn; congruence | now destruct t']. }
  destruct t as [c|name]; cbn [app well_formed] in *.
  - apply andb_true_iff in Ha as [Hc Ha]. rewrite (IH Ha), andb_true_r.
    apply negb_true_iff in Hc. apply negb_true_iff.
    destruct (is_ch ":" c); [|reflexivity]. cbn [andb] in *.
    destruct (starts_ident (a ++ b)) eqn:E; [|reflexivity].
    now rewrite (Hst eq_refl) in Hc.
  - rewrite !andb_true_iff in Ha. destruct Ha as (((Hne & Hid) & Hn) & Ha).
    rewrite Hne, Hid, (IH Ha), andb_true_r. cbn [andb].
    apply negb_true_iff in Hn. apply negb_true_iff.
    destruct (starts_ident (a ++ b)) eqn:E; [|reflexivity].
    now rewrite (Hst eq_refl) in Hn.
Qed.

Lemma is_name_not_colon (c : char) : is_name c = true -> is_ch ":" c = false.
Proof.
  intros H. destruct (is_ch ":" c) eqn:E; [|reflexivity].
  apply is_ch_eq in E. subst c. discriminate H.
Qed.

Lemma well_formed_chars (s : jsstring) (ts : list token) :
  forallb is_name s = true -> well_formed ts = true ->
  well_formed (map Chr s ++ ts) = true.
Proof.
  intros Hs Hts. induction s as [|c s IH]; [assumption|].
  cbn [forallb] in Hs. apply andb_true_iff in Hs as [Hc Hs].
  cbn [map app well_formed]. now rewrite (is_name_not_colon _ Hc), (IH Hs).
Qed.

(** C1. Every template reads as a sequence of plain code units and
    parameters; for each such reading [replacePaths] replaces the
    parameters, from left to right, by [magun4], [magun4_1], ...,
    [magun4_(k-1)], whatever their names; the numbering starts at 0 in
    every call, since the result depends on the template alone. *)
Theorem replacePaths_numbering (pathStr domain : jsstring) :
  (exists ts, well_formed ts = true /\ template_of ts = pathStr)
  /\ placeholder 0 = u "magun4"
  /\ (forall n, placeholder (S n) = u "magun4_" ++ decimal (S n))
  /\ forall ts, well_formed ts = true -> template_of ts = pathStr ->
       let k := length (parameters ts) in
       let replaced := fill ts (map placeholder (seq 0 k)) in
       let withoutWildcard := replace_suffix (u "/*") [] replaced in
       replace_all paramRegex next_param 0 pathStr = replaced
       /\ replacePaths pathStr domain =
            replace_suffix (u "/") [] domain
            ++ (if startsWith withoutWildcard (u "/") then withoutWildcard
                else u "/" ++ withoutWildcard).
Proof.
  split; [apply template_tokens|].
  split; [reflexivity|].
  split; [reflexivity|].
  intros ts Hwf <- k replaced withoutWildcard.
  assert (replace_all paramRegex next_param 0 (template_of ts) = replaced) as E.
  { rewrite (substitute_tokens _ _ Hwf). apply substituted_fill. }
  split; [exact E|].
  rewrite replacePaths_eq. cbv zeta. now rewrite E.
Qed.

Lemma replacePaths_numbering_witness :
  replacePaths (u "/user/:userId/post/:postId") (u "https://example.com")
  = u "https://example.com/user/magun4/post/magun4_1".
Proof.
  pose (ts := map Chr (u "/user/") ++ Param (u "userId")
              :: map Chr (u "/post/") ++ [Param (u "postId")]).
  assert (well_formed ts = true) as Hwf by (vm_compute; reflexivity).
  assert (template_of ts = u "/user/:userId/post/:postId") as Ht
    by (vm_compute; reflexivity).
  refine (eq_trans
    (proj2 (proj2 (proj2 (proj2
       (replacePaths_numbering _ (u "https://example.com")))) ts Hwf Ht)) _).
  vm_compute. reflexivity.
Defined.

(** C10. A parameter name with a hyphen is replaced up to the hyphen only:
    the pattern of [replacePaths] stops at the first code unit outside
    [[a-zA-Z0-9_]], so the hyphen and the name characters after it stay in
    the URL as they are.  [k] is the number of parameters before. *)
Theorem replacePaths_hyphenated
    (pre post : list token) (name tail domain : jsstring) :
  well_formed pre = true -> well_formed post = true ->
  name <> [] -> forallb is_ident name = true -> forallb is_name tail = true ->
  let k := length (parameters pre) in
  let pathStr :=
    template_of pre ++ ch ":" :: name ++ ch "-" :: tail ++ template_of post in
  let replaced :=
    substituted pre 0 ++ placeholder k ++ ch "-" :: tail ++ substituted post (S k) in
  let withoutWildcard := replace_suffix (u "/*") [] replaced in
  replace_all paramRegex next_param 0 pathStr = replaced
  /\ replacePaths pathStr domain =
       replace_suffix (u "/") [] domain
       ++ (if startsWith withoutWildcard (u "/") then withoutWildcard
           else u "/" ++ withoutWildcard).
Proof.
  intros Hpre Hpost Hne Hid Htail k pathStr replaced withoutWildcard.
  pose (ts := pre ++ Param name :: map Chr (ch "-" :: tail) ++ post).
  assert (well_formed ts = true) as Hwf.
  { apply well_formed_app; [assumption | | reflexivity].
    cbn [well_formed]. rewrite Hid.
    destruct name as [|d name]; [easy|]. cbn [length Nat.eqb negb andb map app starts_ident].
    replace (is_ident (ch "-")) with false by reflexivity. cbn [negb andb].
    apply (well_formed_chars (ch "-" :: tail)); [|assumption].
    cbn [forallb]. now rewrite Htail. }
  assert (template_of ts = pathStr) as Ht.
  { unfold ts, pathStr. rewrite template_app.
    change (template_of (Param name :: map Chr (ch "-" :: tail) ++ post))
      with (ch ":" :: name ++ template_of (map Chr (ch "-" :: tail) ++ post)).
    now rewrite template_app, template_chars. }
  assert (substituted ts 0 = replaced) as Hs.
  { unfold ts, replaced. rewrite substituted_app. cbn [Nat.add substituted].
    fold k. rewrite substituted_app, substituted_chars.
    replace (length (parameters (map Chr (ch "-" :: tail)))) with 0;
      [now rewrite Nat.add_0_r|].
    clear. induction (ch "-" :: tail) as [|c l IH]; [reflexivity | exact IH]. }
  assert (replace_all paramRegex next_param 0 pathStr = replaced) as E.
  { rewrite <- Ht, (substitute_tokens _ _ Hwf). exact Hs. }
  split; [exact E|].
  rewrite replacePaths_eq. cbv zeta. now rewrite E.
Qed.

Lemma replacePaths_hyphenated_witness :
  extractPaths (u "route('/x/:user-id')") = [u "/x/:user-id"]
  /\ replacePaths (u "/x/:user-id") (u "https://example.com")
     = u "https://example.com/x/magun4-id".
Proof.
  split; [vm_compute; reflexivity|].
  refine (eq_trans
    (proj2 (replacePaths_hyphenated (map Chr (u "/x/")) [] (u "user") (u "id")
              (u "https://example.com") eq_refl eq_refl _ eq_refl eq_refl)) _).
  - discriminate.
  - vm_compute. reflexivity.
Defined.

(** C4, at a domain that ends in two slashes.  [/\/$/] removes one slash,
    the path brings its own, and the URL has two slashes where the comment
    in the source ([Ensure domain doesn't end with /]) and the claim want
    one. *)
Theorem replacePaths_double_slash :
  replacePaths (u "/a/:b") (u "https://example.com//")
  = u "https://example.com/" ++ u "/a/magun4".
Proof.
  rewrite replacePaths_eq. cbv zeta.
  change (u "https://example.com//") with (u "https://example.com/" ++ u "/").
  rewrite replace_suffix_app by discriminate.
  f_equal.
Qed.

(** What does hold at the join: one slash of the domain is removed, and
    the path part starts with a slash. *)
Lemma replacePaths_join (pathStr domain : jsstring) :
  exists t,
    replacePaths pathStr domain = replace_suffix (u "/") [] domain ++ ch "/" :: t.
Proof.
  rewrite replacePaths_eq. cbv zeta.
  destruct (startsWith _ (u "/")) eqn:E.
  - apply startsWith_spec in E as [t E]. rewrite E. now exists t.
  - now eexists.
Qed.

(** ** The order of [sort] *)

Lemma str_ltb_trans (a b c : jsstring) :
  str_ltb a b = true -> str_ltb b c = true -> str_ltb a c = true.
Proof.
  revert b c; induction a as [|x a IH]; intros [|y b] [|z c]; simpl; try easy.
  destruct (N.ltb_spec x y), (N.ltb_spec y x), (N.ltb_spec y z),
    (N.ltb_spec z y), (N.ltb_spec x z), (N.ltb_spec z x);
    try easy; try lia.
  apply IH.
Qed.

Lemma str_ltb_total (a b : jsstring) :
  str_ltb a b = false -> str_ltb b a = false -> a = b.
Proof.
  revert b; induction a as [|x a IH]; intros [|y b]; simpl; try easy.
  destruct (N.ltb_spec x y), (N.ltb_spec y x); try easy.
  intros H1 H2. f_equal; [lia | now apply IH].
Qed.

Lemma str_leb_trans (a b c : jsstring) :
  str_leb a b = true -> str_leb b c = true -> str_leb a c = true.
Proof.
  unfold str_leb. rewrite !negb_true_iff. intros Hba Hcb.
  destruct (str_ltb c a) eqn:Hca; [|reflexivity].
  destruct (str_ltb a b) eqn:Hab.
  - now rewrite (str_ltb_trans _ _ _ Hca Hab) in Hcb.
  - rewrite (str_ltb_total _ _ Hab Hba) in Hca. congruence.
Qed.

Lemma str_leb_antisym (a b : jsstring) :
  str_leb a b = true -> str_leb b a = true -> a = b.
Proof.
  unfold str_leb. rewrite !negb_true_iff. intros H1 H2.
  now apply str_ltb_total.
Qed.

Lemma sort_sorted (l : list jsstring) : StronglySorted str_le (sort l).
Proof.
  apply StrSort.StronglySorted_sort.
  intros a b c. apply str_leb_trans.
Qed.

Lemma sort_perm (l : list jsstring) : Permutation l (sort l).
Proof. apply StrSort.Permuted_sort. Qed.

Lemma sort_in (l : list jsstring) (x : jsstring) : In x (sort l) <-> In x l.
Proof.
  split; apply Permutation_in;
    [apply Permutation_sym|]; apply sort_perm.
Qed.


(** Two sorted arrays with the same elements are the same array: the
    result of [sort] does not depend on the order of its argument. *)
Lemma sorted_unique (l1 l2 : list jsstring) :
  StronglySorted str_le l1 -> StronglySorted str_le l2 ->
  Permutation l1 l2 -> l1 = l2.
Proof.
  intros H1; revert l2; induction H1 as [|a l1 Hs1 IH Ha]; intros l2 H2 Hp.
  - now apply Permutation_nil in Hp.
  - destruct H2 as [|b l2 Hs2 Hb].
    + apply Permutation_sym, Permutation_nil in Hp. discriminate.
    + assert (a = b) as <-.
      { rewrite Forall_forall in Ha, Hb.
        assert (In a (b :: l2)) as [->|Hin]
          by (apply (Permutation_in _ Hp); now left); [reflexivity|].
        assert (In b (a :: l1)) as [->|Hin']
          by (apply (Permutation_in _ (Permutation_sym Hp)); now left);
          [reflexivity|].
        apply str_leb_antisym; [apply Ha | apply Hb]; assumption. }
      f_equal. apply IH; [assumption|]. now apply Permutation_cons_inv in Hp.
Qed.

Lemma sort_permutation (l1 l2 : list jsstring) :
  Permutation l1 l2 -> sort l1 = sort l2.
Proof.
  intros Hp. apply sorted_unique; try apply sort_sorted.
  eapply Permutation_trans; [apply Permutation_sym, sort_perm|].
  eapply Permutation_trans; [exact Hp | apply sort_perm].
Qed.

(** ** Sets *)

Lemma Set_has_in (s : list jsstring) (x : jsstring) :
  Set_has s x = true <-> In x s.
Proof.
  unfold Set_has. rewrite existsb_exists. split.
  - intros (y & Hy & E). apply str_eqb_eq in E. now subst.
  - intros H. exists x. split; [assumption | apply str_eqb_refl].
Qed.

Lemma Set_add_NoDup (s : list jsstring) (x : jsstring) :
  NoDup s -> NoDup (Set_add s x).
Proof.
  intros H. unfold Set_add. destruct (Set_has s x) eqn:E; [assumption|].
  apply NoDup_app; [assumption | repeat constructor; easy |].
  intros y Hy [<-|[]]. apply Set_has_in in Hy. congruence.
Qed.


Lemma Set_adds_in (l s : list jsstring) (p : jsstring) :
  In p (fold_left Set_add l s) <-> In p s \/ In p l.
Proof.
  revert s; induction l as [|x l IH]; intros s; cbn [fold_left In]; [tauto|].
  rewrite IH, Set_add_in. intuition.
Qed.


(** ** Extraction mode: what is written *)

Lemma collect_in (perFile : list (list jsstring)) (acc : list jsstring)
    (p : jsstring) :
  In p (collect perFile acc)
  <-> In p acc \/ exists paths, In paths perFile /\ In p paths.
Proof.
  unfold collect. revert acc; induction perFile as [|l perFile IH]; intros acc;
    cbn [fold_left].
  - split; [auto | intros [H | (paths & [] & _)]; exact H].
  - rewrite IH, Set_adds_in. split.
    + intros [[H | H] | (paths & Hin & Hp)]; [auto | |].
      * right. exists l. split; [now left | assumption].
      * right. exists paths. split; [now right | assumption].
    + intros [H | (paths & [<- | Hin] & Hp)]; [auto | auto |].
      right. now exists paths.
Qed.


(** How [write_results] ends and what it leaves behind: the first write
    that fails ends it with the exception of [fs]. *)
Lemma write_results_written
    (writeFileSync : jsstring -> jsstring -> result unit)
    (allPaths : list jsstring) (domain : jsstring) (w : world) :
  let pathsContent := join [LF] (pathsArray_of allPaths) in
  let csptContent := join [LF] (csptUrls_of (pathsArray_of allPaths) domain) in
  fst (write_results writeFileSync allPaths domain w)
  = (if length allPaths =? 0 then Done tt
     else match writeFileSync (u "paths.txt") pathsContent with
          | Err m => Thrown m
          | Ok _ =>
              match writeFileSync (u "CSPT_magun4.txt") csptContent with
              | Err m => Thrown m
              | Ok _ => Done tt
              end
          end)
  /\ written (snd (write_results writeFileSync allPaths domain w))
     = written w ++
       (if length allPaths =? 0 then []
        else match writeFileSync (u "paths.txt") pathsContent with
             | Err _ => []
             | Ok _ =>
                 (u "paths.txt", pathsContent)
                 :: match writeFileSync (u "CSPT_magun4.txt") csptContent with
                    | Err _ => []
                    | Ok _ => [(u "CSPT_magun4.txt", csptContent)]
                    end
             end).
Proof.
  intros pathsContent csptContent.
  unfold write_results, write_file. fold pathsContent. fold csptContent.
  destruct (length allPaths =? 0); [cbn; now rewrite app_nil_r|].
  unfold bind at 1. unfold bind at 1.
  destruct (writeFileSync (u "paths.txt") pathsContent) as [[]|m];
    cbn [lift]; [|cbn; now rewrite app_nil_r].
  cbn [file_written]. unfold bind at 1. cbn [console_log].
  unfold bind at 1. unfold bind at 1.
  destruct (writeFileSync (u "CSPT_magun4.txt") csptContent) as [[]|m];
    cbn [lift]; [|cbn; split; reflexivity].
  cbn. now rewrite <- !app_assoc.
Qed.


(** ** List mode: the lines that are passed over *)

Lemma is_ci_lower (a b : ascii) (c : char) :
  is_lower (ch a) = true -> ch b = (ch a - 32)%N ->
  is_ci a b c = char_eqb (lower c) (ch a).
Proof.
  unfold is_ci, is_ch, lower, is_lower, is_upper, in_range, char_eqb.
  intros Ha ->. apply andb_true_iff in Ha as [H1 H2].
  apply N.leb_le in H1, H2.
  change (ch "a") with 97%N in *. change (ch "z") with 122%N in *.
  change (ch "A") with 65%N. change (ch "Z") with 90%N.
  destruct (N.leb_spec 65 c), (N.leb_spec c 90); cbn [andb];
    destruct (N.eqb_spec c (ch a)), (N.eqb_spec c (ch a - 32)),
      (N.eqb_spec (c + 32) (ch a)); cbn [orb]; try reflexivity; lia.
Qed.

Lemma lower_other (x c : char) :
  is_letter x = false -> char_eqb (lower c) x = char_eqb c x.
Proof.
  unfold lower, is_letter, is_lower, is_upper, in_range, char_eqb.
  change (ch "a") with 97%N. change (ch "z") with 122%N.
  change (ch "A") with 65%N. change (ch "Z") with 90%N.
  intros Hx.
  destruct (N.leb_spec 65 c), (N.leb_spec c 90); cbn [andb]; try reflexivity.
  destruct (N.leb_spec 97 x), (N.leb_spec x 122),
    (N.leb_spec 65 x), (N.leb_spec x 90); try discriminate;
    destruct (N.eqb_spec (c + 32) x), (N.eqb_spec c x); try reflexivity; lia.
Qed.

(** The end of the scheme, [://], as the pattern and as a prefix test. *)
Lemma run_colon_slashes (cap s : jsstring) :
  is_some (run [Atom One (is_ch ":"); Atom One (is_ch "/"); Atom One (is_ch "/")]
             false cap s)
  = startsWith (map lower s) (u "://").
Proof.
  change (u "://") with [ch ":"; ch "/"; ch "/"]. cbn [run push].
  destruct s as [|c1 s]; [reflexivity|]. cbn [map startsWith].
  rewrite (lower_other (ch ":") c1 eq_refl). fold (is_ch ":" c1).
  destruct (is_ch ":" c1); [|reflexivity]. cbn [andb].
  destruct s as [|c2 s]; [reflexivity|]. cbn [map startsWith].
  rewrite (lower_other (ch "/") c2 eq_refl). fold (is_ch "/" c2).
  destruct (is_ch "/" c2); [|reflexivity]. cbn [andb].
  destruct s as [|c3 s]; [reflexivity|]. cbn [map startsWith].
  rewrite (lower_other (ch "/") c3 eq_refl). fold (is_ch "/" c3).
  destruct (is_ch "/" c3); reflexivity.
Qed.

Lemma is_some_orelse {A : Type} (a b : option A) :
  is_some (match a with Some x => Some x | None => b end)
  = is_some a || is_some b.
Proof. now destruct a. Qed.

(** [/^https?:\/\//i] accepts the strings that start with [http://] or
    [https://] when the case of the letters is put aside. *)
Lemma test_httpRegex (s : jsstring) :
  test_at_start httpRegex s
  = starts_with_ci s (u "http://") || starts_with_ci s (u "https://").
Proof.
  unfold test_at_start, starts_with_ci, httpRegex.
  fold (is_some (run [ Atom One (is_ci "h" "H"); Atom One (is_ci "t" "T");
    Atom One (is_ci "t" "T"); Atom One (is_ci "p" "P");
    Atom Opt (is_ci "s" "S");
    Atom One (is_ch ":"); Atom One (is_ch "/"); Atom One (is_ch "/") ] false [] s)).
  change (u "http://") with ([ch "h"; ch "t"; ch "t"; ch "p"] ++ u "://").
  change (u "https://") with ([ch "h"; ch "t"; ch "t"; ch "p"; ch "s"] ++ u "://").
  pose proof (run_colon_slashes []) as Htail.
  set (tail := [Atom One (is_ch ":"); Atom One (is_ch "/"); Atom One (is_ch "/")]) in *.
  set (scheme_end := u "://") in *.
  cbn [run push app].
  destruct s as [|c1 s]; [reflexivity|]. cbn [map startsWith].
  rewrite (is_ci_lower "h" "H" c1 eq_refl eq_refl).
  destruct (char_eqb (lower c1) (ch "h")); [|reflexivity]. cbn [andb].
  destruct s as [|c2 s]; [reflexivity|]. cbn [map startsWith].
  rewrite (is_ci_lower "t" "T" c2 eq_refl eq_refl).
  destruct (char_eqb (lower c2) (ch "t")); [|reflexivity]. cbn [andb].
  destruct s as [|c3 s]; [reflexivity|]. cbn [map startsWith].
  rewrite (is_ci_lower "t" "T" c3 eq_refl eq_refl).
  destruct (char_eqb (lower c3) (ch "t")); [|reflexivity]. cbn [andb].
  destruct s as [|c4 s]; [reflexivity|]. cbn [map startsWith].
  rewrite (is_ci_lower "p" "P" c4 eq_refl eq_refl).
  destruct (char_eqb (lower c4) (ch "p")); [|reflexivity]. cbn [andb].
  destruct s as [|c5 s].
  - rewrite Htail. reflexivity.
  - rewrite (is_ci_lower "s" "S" c5 eq_refl eq_refl).
    destruct (char_eqb (lower c5) (ch "s")) eqn:E.
    + rewrite is_some_orelse, !Htail.
      apply char_eqb_eq in E.
      assert (startsWith (map lower (c5 :: s)) scheme_end = false) as ->
        by (cbn [map]; rewrite E; reflexivity).
      cbn [map startsWith]. rewrite E. cbn. now rewrite orb_false_r.
    + rewrite Htail. cbn [map startsWith]. rewrite E. cbn.
      now rewrite orb_false_r.
Qed.

Lemma includes_char_iff (s : jsstring) (c : char) :
  includes s [c] = false <-> ~ In c s.
Proof.
  split; [apply includes_char|]. intros H.
  destruct (includes s [c]) eqn:E; [|reflexivity].
  apply includes_spec in E as (a & b & ->). destruct H.
  apply in_or_app. right. now left.
Qed.

Section ListMode.
Variable new_URL : jsstring -> option URL.

Lemma process_line_skip (line : jsstring) (output : list jsstring) (w : world) :
  passed_over new_URL line -> process_line new_URL output line w = (Done output, w).
Proof.
  unfold passed_over, process_line. cbv zeta.
  intros [H | [[H1 H2] | [H | [H | (urlObj & H & He)]]]].
  - rewrite H. reflexivity.
  - destruct (trim line) as [|c t]; [reflexivity|]. cbn [truthy negb].
    now rewrite test_httpRegex, H1, H2.
  - destruct (trim line) as [|c t]; [reflexivity|]. cbn [truthy negb].
    destruct (test_at_start httpRegex (c :: t)); [|reflexivity]. cbn [negb].
    apply includes_char_iff in H. change (u "?") with [ch "?"]. now rewrite H.
  - destruct (trim line) as [|c t]; [reflexivity|]. cbn [truthy negb].
    destruct (test_at_start httpRegex (c :: t)); [|reflexivity]. cbn [negb].
    destruct (includes (c :: t) (u "?")); [|reflexivity]. cbn [negb].
    rewrite H. reflexivity.
  - destruct (trim line) as [|c t]; [reflexivity|]. cbn [truthy negb].
    destruct (test_at_start httpRegex (c :: t)); [|reflexivity]. cbn [negb].
    destruct (includes (c :: t) (u "?")); [|reflexivity]. cbn [negb].
    rewrite H. unfold try_catch, bind, lift, canonicalUrl. now rewrite He.
Qed.

Lemma process_lines_app (l1 l2 output : list jsstring) (w : world) :
  process_lines new_URL (l1 ++ l2) output w
  = bind (process_lines new_URL l1 output) (process_lines new_URL l2) w.
Proof.
  revert output w; induction l1 as [|line l1 IH]; intros output w.
  - reflexivity.
  - cbn [app process_lines]. unfold bind in *.
    destruct (process_line new_URL output line w) as [[o| | |] w'];
      try reflexivity.
    apply IH.
Qed.

(** C7. A line of one of these kinds leaves the output set and the console
    as they were, and the run over the whole list is the run over the list
    without that line. *)
Theorem processUrlList_skips (line : jsstring) :
  passed_over new_URL line ->
  (forall output w, process_line new_URL output line w = (Done output, w))
  /\ forall before after output w,
       process_lines new_URL (before ++ line :: after) output w
       = process_lines new_URL (before ++ after) output w.
Proof.
  intros H. split.
  - intros output w. now apply process_line_skip.
  - intros before after output w. rewrite !process_lines_app.
    cbn [process_lines]. unfold bind.
    destruct (process_lines new_URL before output w) as [[o| | |] w'];
      try reflexivity.
    now rewrite process_line_skip.
Qed.

End ListMode.

Lemma processUrlList_skips_witness :
  process_line (fun _ => None) [u "https://x.com/a?b=magun4"] (u "  not-a-url ")
    world0
  = (Done [u "https://x.com/a?b=magun4"], world0).
Proof.
  apply (processUrlList_skips (fun _ => None) (u "  not-a-url ")).
  right. left. split; vm_compute; reflexivity.
Defined.

(** ** Extraction mode: a directory that does not exist *)

Lemma parseArgs_from_cons (a v : jsstring) (rest : list jsstring) (c : config) :
  parseArgs_from (a :: v :: rest) c =
  if str_eqb a (u "-js") && truthy (Some v) then
    parseArgs_from rest (mkConfig (Some v) (domain c) (urlsFile c))
  else if str_eqb a (u "-d") && truthy (Some v) then
    parseArgs_from rest (mkConfig (jsDir c) (Some v) (urlsFile c))
  else if str_eqb a (u "-urls") && truthy (Some v) then
    parseArgs_from rest (mkConfig (jsDir c) (domain c) (Some v))
  else parseArgs_from (v :: rest) c.
Proof. reflexivity. Qed.

Lemma parseArgs_from_truthy (args : list jsstring) (c : config) :
  unset_or_truthy (jsDir c) -> unset_or_truthy (domain c) ->
  unset_or_truthy (urlsFile c) ->
  let c' := parseArgs_from args c in
  unset_or_truthy (jsDir c') /\ unset_or_truthy (domain c')
  /\ unset_or_truthy (urlsFile c').
Proof.
  remember (length args) as n eqn:Hn.
  revert args c Hn; induction n as [n IH] using lt_wf_ind.
  intros [|a [|v rest]] c Hn H1 H2 H3; [cbn; auto | cbn; auto |].
  cbv zeta. rewrite parseArgs_from_cons. cbn [length] in Hn.
  destruct (str_eqb a (u "-js") && truthy (Some v)) eqn:E1.
  { apply andb_true_iff in E1 as [_ Hv].
    apply (IH (length rest)); [lia | reflexivity | right; exact Hv | | ]; assumption. }
  destruct (str_eqb a (u "-d") && truthy (Some v)) eqn:E2.
  { apply andb_true_iff in E2 as [_ Hv].
    apply (IH (length rest)); [lia | reflexivity | | right; exact Hv | ]; assumption. }
  destruct (str_eqb a (u "-urls") && truthy (Some v)) eqn:E3.
  { apply andb_true_iff in E3 as [_ Hv].
    apply (IH (length rest)); [lia | reflexivity | | | right; exact Hv]; assumption. }
  apply (IH (length (v :: rest))); [cbn [length]; lia | reflexivity | | | ]; assumption.
Qed.

Lemma parseArgs_truthy (args : list jsstring) :
  unset_or_truthy (jsDir (parseArgs args))
  /\ unset_or_truthy (domain (parseArgs args))
  /\ unset_or_truthy (urlsFile (parseArgs args)).
Proof. apply parseArgs_from_truthy; now left. Qed.

Section ExtractionMode.
Variable existsSync : jsstring -> bool.
Variable readdirSync : jsstring -> result (list jsstring).
Variable statSync_isDirectory : jsstring -> result bool.
Variable readFileSync : jsstring -> result jsstring.
Variable writeFileSync : jsstring -> jsstring -> result unit.
Variable path_join : jsstring -> jsstring -> jsstring.
Variable path_basename : jsstring -> jsstring.
Variable new_URL : jsstring -> option URL.

#[local] Abbreviation walk :=
  (getAllJsFiles existsSync readdirSync statSync_isDirectory path_join).
#[local] Abbreviation run_main :=
  (main existsSync readdirSync statSync_isDirectory readFileSync
     writeFileSync path_join path_basename new_URL).

(** C8. When the directory of extraction mode does not exist,
    [getAllJsFiles] writes its diagnostic and returns no file; [main] then
    reports that no paths were found and returns, so nothing is written and
    the exit status is 0. *)
Theorem main_missing_directory
    (fuel : nat) (argv : list jsstring) (dir dom : jsstring) (w : world) :
  jsDir (parseArgs argv) = Some dir ->
  domain (parseArgs argv) = Some dom ->
  urlsFile (parseArgs argv) = None ->
  existsSync dir = false ->
  let diagnostic := u "Error: Directory " ++ dir ++ u " does not exist" in
  walk (S fuel) dir w
  = (Done [], mkWorld (stdout w) (stderr w ++ [diagnostic]) (written w))
  /\ run_main (S fuel) argv w
     = (Done tt,
        mkWorld
          (stdout w ++ [ u "Scanning JS files in: " ++ dir;
                         u "Domain: " ++ dom;
                         u "Found 0 JS file(s)";
                         u "No paths with parameters found!" ])
          (stderr w ++ [diagnostic])
          (written w))
  /\ exit_status (fst (run_main (S fuel) argv w)) = Some 0.
Proof.
  intros Hdir Hdom Hurls Hex diagnostic.
  assert (forall w0, walk (S fuel) dir w0
          = (Done [], mkWorld (stdout w0) (stderr w0 ++ [diagnostic]) (written w0)))
    as Hwalk by (intros w0; cbn [getAllJsFiles]; rewrite Hex; reflexivity).
  assert (run_main (S fuel) argv w
     = (Done tt,
        mkWorld
          (stdout w ++ [ u "Scanning JS files in: " ++ dir;
                         u "Domain: " ++ dom;
                         u "Found 0 JS file(s)";
                         u "No paths with parameters found!" ])
          (stderr w ++ [diagnostic])
          (written w))) as Hmain.
  { destruct (parseArgs_truthy argv) as ([Hd | Hd] & [Hm | Hm] & _);
      rewrite ?Hdir, ?Hdom in *; try discriminate.
    destruct dir as [|c d]; [discriminate|].
    destruct dom as [|c' dom]; [discriminate|].
    unfold main. rewrite Hurls, Hdir, Hdom.
    unfold bind at 1. cbn [console_log].
    unfold bind at 1. cbn [console_log stdout stderr written].
    unfold bind at 1. rewrite Hwalk. cbn [stdout stderr written].
    unfold bind, scan_files, ret, write_results.
    cbn [length Nat.eqb]. unfold console_log.
    cbn [stdout stderr written].
    rewrite <- !app_assoc. reflexivity. }
  split; [apply Hwalk|]. split; [exact Hmain|].
  now rewrite Hmain.
Qed.

End ExtractionMode.

Lemma main_missing_directory_witness :
  let main' :=
    main (fun _ => false) (fun _ => Err []) (fun _ => Err [])
      (fun _ => Err []) (fun _ _ => Ok tt) (fun a b => a ++ u "/" ++ b)
      (fun a => a) (fun _ => None) in
  exit_status
    (fst (main' 1 [u "-js"; u "./missing"; u "-d"; u "https://example.com"]
            world0)) = Some 0.
Proof.
  cbv zeta.
  refine (proj2 (proj2 (main_missing_directory (fun _ => false) (fun _ => Err [])
    (fun _ => Err []) (fun _ => Err []) (fun _ _ => Ok tt)
    (fun a b => a ++ u "/" ++ b) (fun a => a) (fun _ => None) 0
    [u "-js"; u "./missing"; u "-d"; u "https://example.com"]
    (u "./missing") (u "https://example.com") world0 _ _ _ _)));
    reflexivity.
Defined.

(** ** [getAllJsFiles] and an entry that cannot be examined *)

(** C9, at that directory.  Nothing in [getAllJsFiles] or around its call
    in [main] catches the exception of [statSync]: the walk ends with the
    exception and the process with status 1, where the claim wants the walk
    to complete. *)
Theorem getAllJsFiles_dangling_link :
  getAllJsFiles link_exists link_readdir link_stat join_slash
    2 (u "/srv/js") world0
  = (Thrown (u "ENOENT: no such file or directory, stat"), world0)
  /\ exit_status
       (fst (main link_exists link_readdir link_stat (fun _ => Err [])
               (fun _ _ => Ok tt) join_slash (fun p => p) (fun _ => None) 2
               [u "-js"; u "/srv/js"; u "-d"; u "https://example.com"] world0))
     = Some 1.
Proof. split; vm_compute; reflexivity. Qed.

(** ** List mode: keys that [Object.prototype] knows *)

(** C2, at a query with the key [constructor].  [keyCounts.constructor] is
    read from the prototype before the key is counted: it is a function,
    [(f || 0) + 1] is a string, the loop [i < keyCounts[k]] compares with
    [NaN] and never runs, and the key is missing from the output, where
    the claim wants it once for each occurrence in the input. *)
Theorem canonParams_constructor :
  get [] (u "constructor") = VObject (u "function Object() { [native code] }")
  /\ count_keys [(u "constructor", u "1"); (u "a", u "2")]
     = [ (u "constructor", PString (u "function Object() { [native code] }1"));
         (u "a", PNumber 1) ]
  /\ iterations (VPrim (PString (u "function Object() { [native code] }1"))) = 0
  /\ canonParams_of [(u "constructor", u "1"); (u "a", u "2")]
     = [(u "a", u "magun4")]
  /\ canonicalUrl
       (mkURL (u "https://x.com") (u "/a") []
          [(u "constructor", u "1"); (u "a", u "2")])
     = Some (u "https://x.com/a?a=magun4")
  /\ canonicalUrl
       (mkURL (u "https://x.com") (u "/a") [] [(u "constructor", u "1")])
     = Some (u "https://x.com/a").
Proof. repeat split; vm_compute; reflexivity. Qed.

(** *** Keys that the prototype does not know

    Away from the names of [Object.prototype] the counting is right: the
    canonical keys are the keys of the query, sorted, each as often as it
    occurs, and the values are numbered by one index (lemmas
    [canonParams_sorted] and [inject_values]). *)

Lemma lookup_put (o : object) (k q : jsstring) (p : prim) :
  lookup (put o k p) q = if str_eqb q k then Some p else lookup o q.
Proof.
  induction o as [|[k0 v] o IH]; cbn [put lookup]; [reflexivity|].
  destruct (str_eqb k k0) eqn:E; cbn [lookup].
  - apply str_eqb_eq in E. subst k0. now destruct (str_eqb q k).
  - rewrite IH. destruct (str_eqb q k0) eqn:E0; [|reflexivity].
    apply str_eqb_eq in E0. subst k0.
    destruct (str_eqb q k) eqn:E1; [|reflexivity].
    apply str_eqb_eq in E1. subst. rewrite str_eqb_refl in E. discriminate.
Qed.

Lemma lookup_in (o : object) (k : jsstring) :
  In k (map fst o) <-> lookup o k <> None.
Proof.
  induction o as [|[k0 v] o IH]; cbn [map fst In lookup]; [easy|].
  destruct (str_eqb k k0) eqn:E.
  - apply str_eqb_eq in E. subst. split; [discriminate | auto].
  - rewrite IH. split; [intros [->|H]; [|exact H] | auto].
    rewrite str_eqb_refl in E. discriminate.
Qed.

Lemma put_keys (o : object) (k : jsstring) (p : prim) :
  NoDup (map fst o) -> NoDup (map fst (put o k p)).
Proof.
  induction o as [|[k0 v] o IH]; cbn [put map fst]; intros H.
  - repeat constructor. easy.
  - destruct (str_eqb k k0) eqn:E; cbn [map fst]; [exact H|].
    inversion_clear H as [|? ? Hnotin Hnd]. constructor; [|now apply IH].
    intros Hin. apply lookup_in in Hin. rewrite lookup_put in Hin.
    destruct (str_eqb k0 k) eqn:E'.
    + apply str_eqb_eq in E'. subst. rewrite str_eqb_refl in E. discriminate.
    + now apply lookup_in in Hin.
Qed.

Lemma count_key_counts (o : object) (seen : list jsstring) (key : jsstring) :
  on_prototype key = false -> counts o seen ->
  counts (count_key o key) (seen ++ [key]).
Proof.
  intros Hproto Ho k. unfold count_key, set.
  assert (str_eqb key (u "__proto__") = false) as ->.
  { destruct (str_eqb key (u "__proto__")) eqn:E; [|reflexivity].
    apply str_eqb_eq in E. subst. discriminate Hproto. }
  rewrite lookup_put. unfold counts, occurrences in *.
  rewrite count_occ_app. cbn [count_occ].
  destruct (str_eqb k key) eqn:E.
  - apply str_eqb_eq in E. subst k.
    destruct (str_dec key key) as [_|N]; [|easy].
    unfold get. rewrite (Ho key). unfold on_prototype in Hproto.
    destruct (count_occ str_dec seen key) as [|n] eqn:En; cbn [Nat.eqb].
    + destruct (lookup ObjectPrototype key); [discriminate | reflexivity].
    + replace (S n + 1 =? 0) with false by (symmetry; apply Nat.eqb_neq; lia).
      cbn [or_zero_plus_one]. reflexivity.
  - destruct (str_dec key k) as [->|N].
    + rewrite str_eqb_refl in E. discriminate.
    + rewrite Nat.add_0_r. apply Ho.
Qed.

Lemma count_keys_from (keys seen : list jsstring) (o : object) :
  Forall (fun k => on_prototype k = false) keys ->
  counts o seen -> NoDup (map fst o) ->
  counts (fold_left count_key keys o) (seen ++ keys)
  /\ NoDup (map fst (fold_left count_key keys o)).
Proof.
  revert seen o; induction keys as [|key keys IH]; intros seen o Hk Ho Hnd.
  - rewrite app_nil_r. now split.
  - inversion_clear Hk as [|? ? Hkey Hkeys]. cbn [fold_left].
    replace (seen ++ key :: keys) with ((seen ++ [key]) ++ keys)
      by now rewrite <- app_assoc.
    apply IH; [assumption | now apply count_key_counts |].
    unfold count_key, set. destruct (str_eqb key (u "__proto__")); [exact Hnd|].
    now apply put_keys.
Qed.

Lemma count_flat_repeat (f : jsstring -> nat) (ks : list jsstring) (x : jsstring) :
  NoDup ks ->
  count_occ str_dec (flat_map (fun k => repeat k (f k)) ks) x
  = if in_dec str_dec x ks then f x else 0.
Proof.
  induction 1 as [|k ks Hnotin Hnd IH]; [reflexivity|].
  cbn [flat_map]. rewrite count_occ_app, IH.
  destruct (str_dec k x) as [->|N].
  - rewrite count_occ_repeat_eq by reflexivity.
    destruct (in_dec str_dec x ks) as [Hin|_]; [easy|].
    destruct (in_dec str_dec x (x :: ks)) as [_|Hn]; [lia|].
    destruct Hn. now left.
  - rewrite count_occ_repeat_neq by congruence.
    destruct (in_dec str_dec x ks) as [Hin|Hn],
      (in_dec str_dec x (k :: ks)) as [[E|Hin']|Hn']; try easy.
    + destruct Hn'. now right.
Qed.

Lemma str_le_refl (a : jsstring) : str_le a a.
Proof. unfold str_le, str_leb. now rewrite str_ltb_irrefl. Qed.

Lemma sorted_flat_repeat (f : jsstring -> nat) (ks : list jsstring) :
  StronglySorted str_le ks ->
  StronglySorted str_le (flat_map (fun k => repeat k (f k)) ks).
Proof.
  induction 1 as [|k ks Hs IH Hk]; [constructor|]. cbn [flat_map].
  assert (Forall (str_le k) (flat_map (fun k => repeat k (f k)) ks)) as Hall.
  { rewrite Forall_forall in *. intros x Hx.
    apply in_flat_map in Hx as (k' & Hk' & Hx).
    apply repeat_spec in Hx. subst. now apply Hk. }
  induction (f k) as [|n IHn]; [exact IH|]. cbn [repeat app].
  constructor; [exact IHn|].
  apply Forall_app. split; [|exact Hall].
  apply Forall_forall. intros x Hx. apply repeat_spec in Hx. subst.
  apply str_le_refl.
Qed.

Lemma flat_map_in_ext {A B : Type} (f g : A -> list B) (l : list A) :
  (forall a, In a l -> f a = g a) -> flat_map f l = flat_map g l.
Proof.
  induction l as [|a l IH]; intros H; [reflexivity|]. cbn [flat_map].
  rewrite (H a) by now left. rewrite IH; [reflexivity|].
  intros b Hb. apply H. now right.
Qed.

Lemma keysWithDupes_sorted (keys : list jsstring) :
  Forall (fun k => on_prototype k = false) keys ->
  keysWithDupes_of (fold_left count_key keys []) = sort keys.
Proof.
  intros Hk.
  destruct (count_keys_from keys [] [] Hk) as [Hc Hnd];
    [intros k; reflexivity | constructor |].
  cbn [app] in Hc. set (o := fold_left count_key keys []) in *.
  unfold keysWithDupes_of, Object_keys.
  rewrite flat_map_in_ext with (g := fun k => repeat k (occurrences keys k)).
  2:{ intros k Hin. apply sort_in, lookup_in in Hin. unfold get.
      rewrite (Hc k) in *. destruct (occurrences keys k =? 0); easy. }
  apply sorted_unique; [apply sorted_flat_repeat, sort_sorted | apply sort_sorted |].
  eapply Permutation_trans; [|apply sort_perm].
  apply (Permutation_count_occ str_dec). intros x.
  rewrite count_flat_repeat
    by (apply (Permutation_NoDup (sort_perm _)); exact Hnd).
  destruct (in_dec str_dec x (sort (map fst o))) as [Hin|Hn]; [reflexivity|].
  fold (occurrences keys x).
  destruct (occurrences keys x) as [|n] eqn:E; [reflexivity|].
  destruct Hn. apply sort_in, lookup_in. rewrite (Hc x), E. discriminate.
Qed.

Lemma canonParams_sorted (entries : list (jsstring * jsstring)) :
  Forall (fun kv => on_prototype (fst kv) = false) entries ->
  canonParams_of entries = inject (sort (map fst entries)) 0
  /\ StronglySorted str_le (sort (map fst entries))
  /\ Permutation (map fst entries) (sort (map fst entries)).
Proof.
  intros H. split; [|split; [apply sort_sorted | apply sort_perm]].
  unfold canonParams_of, count_keys. rewrite keysWithDupes_sorted; [reflexivity|].
  now apply Forall_map.
Qed.

(** The values are [magun4], [magun4_1], ... along the canonical keys. *)
Lemma inject_values (keys : list jsstring) (idx : nat) :
  map fst (inject keys idx) = keys
  /\ map snd (inject keys idx) = map placeholder (seq idx (length keys)).
Proof.
  revert idx; induction keys as [|k keys IH]; intros idx; [now split|].
  cbn [inject map fst snd length seq]. destruct (IH (S idx)) as [-> ->].
  now split.
Qed.

(** ** Extraction mode: from the files to the set of templates *)

Section Collecting.
Variable readFileSync : jsstring -> result jsstring.
Variable path_basename : jsstring -> jsstring.

Lemma scan_file_adds (allPaths : list jsstring) (file : jsstring) (w : world) :
  exists w',
    scan_file readFileSync path_basename allPaths file w
    = (Done (fold_left Set_add (per_file readFileSync file) allPaths), w')
    /\ written w' = written w.
Proof.
  unfold scan_file, try_catch, bind, lift, per_file.
  destruct (readFileSync file) as [content|message].
  - destruct (0 <? length (extractPaths content)) eqn:E.
    + cbn. eexists. split; reflexivity.
    + apply Nat.ltb_ge in E.
      destruct (extractPaths content) as [|x l]; [|cbn [length] in E; lia].
      exists w. now split.
  - cbn. eexists. split; reflexivity.
Qed.

(** The loop over the files returns the set that [collect] describes and
    writes no file. *)
Lemma scan_files_collect (files allPaths : list jsstring) (w : world) :
  exists w',
    scan_files readFileSync path_basename files allPaths w
    = (Done (collect (map (per_file readFileSync) files) allPaths), w')
    /\ written w' = written w.
Proof.
  revert allPaths w; induction files as [|file files IH]; intros allPaths w.
  - exists w. now split.
  - cbn [scan_files map]. unfold collect. cbn [fold_left]. fold collect.
    unfold bind.
    destruct (scan_file_adds allPaths file w) as (w1 & -> & Hw1).
    destruct (IH (fold_left Set_add (per_file readFileSync file) allPaths) w1)
      as (w' & -> & Hw').
    exists w'. split; [reflexivity | congruence].
Qed.

End Collecting.

(** ** The lines of [paths.txt]

    The entries of [paths.txt] contain no line break, so splitting the file
    at its line breaks gives the entries back. *)

Lemma run_newlineRegex (c : char) (s : jsstring) :
  char_eqb CR c = false -> char_eqb LF c = false ->
  run newlineRegex false [] (c :: s) = None.
Proof.
  intros H1 H2. unfold newlineRegex. cbn [run]. rewrite H1. cbn [run].
  now rewrite H2.
Qed.

Lemma pieces_no_break (x rest : jsstring) :
  no_break x ->
  pieces newlineRegex (x ++ rest) 0 = map Gap x ++ pieces newlineRegex rest 0.
Proof.
  intros [H1 H2]. induction x as [|c x IH]; [reflexivity|].
  cbn [app pieces map]. rewrite run_newlineRegex.
  - rewrite IH; [reflexivity | |]; intros Hin; [apply H1 | apply H2]; now right.
  - destruct (char_eqb CR c) eqn:E; [|reflexivity].
    apply char_eqb_eq in E. destruct H2. now left.
  - destruct (char_eqb LF c) eqn:E; [|reflexivity].
    apply char_eqb_eq in E. destruct H1. now left.
Qed.

Lemma split_in_gaps (x cur : jsstring) (ps : list piece) :
  split_in (map Gap x ++ ps) cur = split_in ps (cur ++ x).
Proof.
  revert cur; induction x as [|c x IH]; intros cur; cbn [map app split_in].
  - now rewrite app_nil_r.
  - rewrite IH, <- app_assoc. reflexivity.
Qed.

Lemma split_join (l : list jsstring) :
  l <> [] -> Forall no_break l -> split newlineRegex (join [LF] l) = l.
Proof.
  unfold split. induction l as [|x l IH]; intros Hne Hall; [easy|].
  inversion_clear Hall as [|? ? Hx Hl].
  destruct l as [|y l].
  - cbn [join]. rewrite <- (app_nil_r x) at 1.
    rewrite (pieces_no_break _ _ Hx), split_in_gaps. reflexivity.
  - change (join [LF] (x :: y :: l)) with (x ++ LF :: join [LF] (y :: l)).
    rewrite (pieces_no_break _ _ Hx), split_in_gaps.
    cbn [pieces]. change (run newlineRegex false [] (LF :: join [LF] (y :: l)))
      with (Some (@nil char, join [LF] (y :: l))).
    cbn [length]. rewrite Nat.sub_succ_l, Nat.sub_diag by lia.
    cbn [firstn length Nat.sub split_in app].
    rewrite IH; [reflexivity | discriminate | assumption].
Qed.

Lemma is_path_no_break (p : jsstring) : all is_path p -> no_break p.
Proof.
  intros H. split; intros Hin; apply (proj1 (Forall_forall _ _) H) in Hin;
    discriminate Hin.
Qed.

(** X27. Splitting [paths.txt] at its line breaks gives back the sorted
    templates, one per line: no template contains a line break. *)
Lemma paths_txt_lines (contents : list jsstring) :
  let allPaths := collect (map extractPaths contents) [] in
  allPaths <> [] ->
  split newlineRegex (join [LF] (pathsArray_of allPaths)) = pathsArray_of allPaths.
Proof.
  intros allPaths Hne. apply split_join.
  - intros E. apply Hne. apply Permutation_nil.
    apply Permutation_sym. unfold pathsArray_of in E. rewrite <- E.
    apply sort_perm.
  - apply Forall_forall. intros p Hp. apply is_path_no_break.
    apply sort_in, collect_in in Hp as [[] | (paths & Hin & Hp)].
    apply in_map_iff in Hin as (content & <- & _).
    now apply extractPaths_chars in Hp.
Qed.

(** ** The scenarios of the specification *)

Example scenario_extraction :
  let content :=
    u "app.get('/download/:id', handler);" ++ [LF]
    ++ u "app.post('/user/:userId/post/:postId', handler);" in
  let pathsArray := pathsArray_of (collect [extractPaths content] []) in
  pathsArray = [u "/download/:id"; u "/user/:userId/post/:postId"]
  /\ csptUrls_of pathsArray (u "https://example.com")
     = [ u "https://example.com/download/magun4";
         u "https://example.com/user/magun4/post/magun4_1" ].
Proof. split; vm_compute; reflexivity. Qed.

Example scenario_parentheses :
  extractPaths (u "fetch('/api/search?q=(test)')") = [].
Proof. vm_compute. reflexivity. Qed.

Example scenario_query :
  canonicalUrl
    (mkURL (u "https://x.com") (u "/a") [] [(u "b", u "1"); (u "c", u "2")])
  = Some (u "https://x.com/a?b=magun4&c=magun4_1").
Proof. vm_compute. reflexivity. Qed.

Example scenario_canonical_order :
  canonParams_of [(u "b", u "1"); (u "a", u "2"); (u "b", u "3")]
  = [(u "a", u "magun4"); (u "b", u "magun4_1"); (u "b", u "magun4_2")].
Proof. vm_compute. reflexivity. Qed.

(** * Further properties of the script

    What follows covers the rest of the behaviour of the six functions:
    the argument parser, the walk over the directory, the extractor, the
    substitution, the list mode and the orchestration in [main]. *)

(** ** [parseArgs] *)

Lemma parseArgs_from_follows (args0 : list jsstring) :
  forall n args seen c,
    n = length args -> args0 = seen ++ args ->
    follows_flag (u "-js") args0 (jsDir c) ->
    follows_flag (u "-d") args0 (domain c) ->
    follows_flag (u "-urls") args0 (urlsFile c) ->
    follows_flag (u "-js") args0 (jsDir (parseArgs_from args c))
    /\ follows_flag (u "-d") args0 (domain (parseArgs_from args c))
    /\ follows_flag (u "-urls") args0 (urlsFile (parseArgs_from args c)).
Proof.
  induction n as [n IH] using lt_wf_ind.
  intros [|a [|v rest]] seen c Hn Hargs H1 H2 H3; [cbn; auto | cbn; auto |].
  rewrite parseArgs_from_cons. cbn [length] in Hn.
  assert (args0 = (seen ++ [a; v]) ++ rest) as Hnext
    by (rewrite Hargs, <- app_assoc; reflexivity).
  assert (forall flag, str_eqb a flag && truthy (Some v) = true ->
            follows_flag flag args0 (Some v)) as Hset.
  { intros flag E w [= <-]. apply andb_true_iff in E as [Ea Ev].
    apply str_eqb_eq in Ea. subst a. split.
    - destruct v; [discriminate | discriminate].
    - now exists seen, rest. }
  destruct (str_eqb a (u "-js") && truthy (Some v)) eqn:E1.
  { apply (IH (length rest)) with (seen := seen ++ [a; v]);
      [lia | reflexivity | exact Hnext | apply Hset; exact E1 | exact H2 | exact H3]. }
  destruct (str_eqb a (u "-d") && truthy (Some v)) eqn:E2.
  { apply (IH (length rest)) with (seen := seen ++ [a; v]);
      [lia | reflexivity | exact Hnext | exact H1 | apply Hset; exact E2 | exact H3]. }
  destruct (str_eqb a (u "-urls") && truthy (Some v)) eqn:E3.
  { apply (IH (length rest)) with (seen := seen ++ [a; v]);
      [lia | reflexivity | exact Hnext | exact H1 | exact H2 | apply Hset; exact E3]. }
  apply (IH (length (v :: rest))) with (seen := seen ++ [a]);
    [cbn [length]; lia | reflexivity | | exact H1 | exact H2 | exact H3].
  rewrite Hargs, <- app_assoc. reflexivity.
Qed.

(** X1. Whatever [parseArgs] stores under [jsDir], [domain] or [urlsFile]
    is a non-empty argument that stands immediately after [-js], [-d] or
    [-urls] on the command line. *)
Theorem parseArgs_value_follows_flag (args : list jsstring) :
  follows_flag (u "-js") args (jsDir (parseArgs args))
  /\ follows_flag (u "-d") args (domain (parseArgs args))
  /\ follows_flag (u "-urls") args (urlsFile (parseArgs args)).
Proof.
  apply (parseArgs_from_follows args (length args) args []);
    try reflexivity; intros v [=].
Qed.

(** X2. An argument that is none of the three flags, met where a flag is
    expected, is stepped over: the result is the one for the remaining
    arguments. *)
Theorem parseArgs_skips_unknown (a : jsstring) (rest : list jsstring) :
  is_flag a = false -> parseArgs (a :: rest) = parseArgs rest.
Proof.
  unfold is_flag, parseArgs. rewrite !orb_false_iff. intros [[H1 H2] H3].
  destruct rest as [|v rest]; [reflexivity|].
  rewrite parseArgs_from_cons, H1, H2, H3. reflexivity.
Qed.

Lemma parseArgs_skips_unknown_witness :
  parseArgs [u "--verbose"; u "-js"; u "./src"; u "-d"; u "https://x.com"]
  = parseArgs [u "-js"; u "./src"; u "-d"; u "https://x.com"].
Proof. apply parseArgs_skips_unknown. reflexivity. Defined.

(** ** [getAllJsFiles] *)

Section Walk.
Variable existsSync : jsstring -> bool.
Variable readdirSync : jsstring -> result (list jsstring).
Variable statSync_isDirectory : jsstring -> result bool.
Variable path_join : jsstring -> jsstring -> jsstring.

#[local] Abbreviation walk :=
  (getAllJsFiles existsSync readdirSync statSync_isDirectory path_join).
#[local] Abbreviation each :=
  (each_item statSync_isDirectory path_join).
#[local] Abbreviation listed :=
  (listed_js readdirSync statSync_isDirectory path_join).

Lemma getAllJsFiles_step (fuel : nat) (dir : jsstring) :
  walk (S fuel) dir =
  if negb (existsSync dir) then
    console_error (u "Error: Directory " ++ dir ++ u " does not exist") ;;
    ret []
  else
    items <- lift (readdirSync dir) ;;
    each (walk fuel) dir items [].
Proof. reflexivity. Qed.

Lemma each_item_listed (descend : jsstring -> M (list jsstring))
    (dir : jsstring) (all_items : list jsstring) :
  readdirSync dir = Ok all_items ->
  (forall d w files w', descend d w = (Done files, w') -> Forall listed files) ->
  forall items acc w files w',
    incl items all_items -> Forall listed acc ->
    each descend dir items acc w = (Done files, w') -> Forall listed files.
Proof.
  intros Hread Hdesc. induction items as [|item items IH];
    intros acc w files w' Hincl Hacc; cbn [each_item].
  - now intros [= <- _].
  - assert (In item all_items) as Hitem by (apply Hincl; now left).
    assert (incl items all_items) as Hincl'
      by (intros x Hx; apply Hincl; now right).
    unfold bind at 1.
    destruct (statSync_isDirectory (path_join dir item)) as [[|]|m] eqn:Est;
      cbn [lift]; [| |discriminate].
    + unfold bind at 1.
      destruct (descend (path_join dir item) w) as [[sub| | |] w1] eqn:Ed;
        try discriminate.
      apply IH; [assumption|]. apply Forall_app. split; [assumption|].
      eapply Hdesc. exact Ed.
    + destruct (endsWith item (u ".js")) eqn:Ejs.
      * apply IH; [assumption|]. apply Forall_app. split; [assumption|].
        constructor; [|constructor]. now exists dir, item, all_items.
      * now apply IH.
Qed.

(** X3. Every path returned by [getAllJsFiles] is the join of a directory
    and one of the entries [readdirSync] listed for it, the entry has a
    name ending in [.js], and [statSync] did not call it a directory. *)
Theorem getAllJsFiles_returns_js
    (fuel : nat) (dir : jsstring) (w w' : world) (files : list jsstring) :
  walk fuel dir w = (Done files, w') -> Forall listed files.
Proof.
  revert dir w w' files; induction fuel as [|fuel IH]; intros dir w w' files;
    [discriminate|].
  rewrite getAllJsFiles_step.
  destruct (existsSync dir); cbn [negb].
  - unfold bind at 1.
    destruct (readdirSync dir) as [items|m] eqn:Eread; cbn [lift];
      [|discriminate].
    apply (each_item_listed (walk fuel) dir items Eread
             (fun d w0 fs w1 => IH d w0 w1 fs));
      [apply incl_refl | constructor].
  - cbn. intros [= <- _]. constructor.
Qed.

Lemma quiet_refl {A : Type} (o : outcome A) (w : world) : quiet w (o, w).
Proof. repeat split. exists []. now rewrite app_nil_r. Qed.

Lemma quiet_bind {A B : Type} (c : M A) (k : A -> M B) (w : world) :
  quiet w (c w) -> (forall a w1, quiet w1 (k a w1)) -> quiet w (bind c k w).
Proof.
  intros (H1 & H2 & m & H3) Hk. unfold bind.
  destruct (c w) as [[a| | |] w1]; cbn [snd] in *;
    try (repeat split; try assumption; now exists m).
  destruct (Hk a w1) as (K1 & K2 & m' & K3).
  repeat split; try congruence.
  exists (m ++ m'). now rewrite K3, H3, app_assoc.
Qed.

Lemma quiet_lift {A : Type} (r : result A) (w : world) : quiet w (lift r w).
Proof. destruct r; apply quiet_refl. Qed.

Lemma each_item_quiet (descend : jsstring -> M (list jsstring)) (dir : jsstring) :
  (forall d w, quiet w (descend d w)) ->
  forall items acc w, quiet w (each descend dir items acc w).
Proof.
  intros Hdesc. induction items as [|item items IH]; intros acc w;
    cbn [each_item]; [apply quiet_refl|].
  apply quiet_bind; [apply quiet_lift|]. intros [|] w1.
  - apply quiet_bind; [apply Hdesc|]. intros sub w2. apply IH.
  - destruct (endsWith item (u ".js")); apply IH.
Qed.

Lemma getAllJsFiles_quiet (fuel : nat) (dir : jsstring) (w : world) :
  quiet w (walk fuel dir w).
Proof.
  revert dir w; induction fuel as [|fuel IH]; intros dir w;
    [apply quiet_refl|].
  rewrite getAllJsFiles_step. destruct (existsSync dir); cbn [negb].
  - apply quiet_bind; [apply quiet_lift|]. intros items w1.
    now apply each_item_quiet.
  - apply quiet_bind; [|intros; apply quiet_refl].
    cbn. repeat split. now eexists.
Qed.

(** X4. Whatever happens during the walk (it returns, or [readdirSync] or
    [statSync] throws), [getAllJsFiles] writes no file and prints nothing
    to standard output, and standard error only grows. *)
Theorem getAllJsFiles_writes_nothing (fuel : nat) (dir : jsstring) (w : world) :
  stdout (snd (walk fuel dir w)) = stdout w
  /\ written (snd (walk fuel dir w)) = written w
  /\ exists more, stderr (snd (walk fuel dir w)) = stderr w ++ more.
Proof.
  destruct (getAllJsFiles_quiet fuel dir w) as (H1 & H2 & more & H3).
  split; [exact H1|]. split; [exact H2|]. now exists more.
Qed.

(** X5. For a directory that exists and holds no subdirectory, the walk
    returns the entries whose names end in [.js], joined to the directory,
    in the order of the listing, and prints nothing. *)
Theorem getAllJsFiles_flat
    (fuel : nat) (dir : jsstring) (items : list jsstring) (w : world) :
  existsSync dir = true ->
  readdirSync dir = Ok items ->
  (forall item, In item items ->
     statSync_isDirectory (path_join dir item) = Ok false) ->
  walk (S fuel) dir w
  = (Done (map (path_join dir)
             (filter (fun item => endsWith item (u ".js")) items)), w).
Proof.
  intros Hex Hread Hstat. rewrite getAllJsFiles_step, Hex. cbn [negb].
  unfold bind at 1. rewrite Hread. cbn [lift].
  change (map (path_join dir) (filter (fun item => endsWith item (u ".js")) items))
    with ([] ++ map (path_join dir)
                  (filter (fun item => endsWith item (u ".js")) items)).
  clear Hread. revert Hstat. generalize (@nil jsstring) as acc.
  induction items as [|item items IH]; intros acc Hstat;
    cbn [each_item filter map].
  - now rewrite app_nil_r.
  - unfold bind at 1. rewrite (Hstat item) by now left. cbn [lift].
    destruct (endsWith item (u ".js")); cbn [map].
    + rewrite IH by (intros i Hi; apply Hstat; now right).
      now rewrite <- app_assoc.
    + apply IH. intros i Hi. apply Hstat. now right.
Qed.

(** An outcome of the walk that [fs] accounts for. *)
Lemma each_item_from_fs (descend : jsstring -> M (list jsstring))
    (dir d : jsstring) (all_items : list jsstring) :
  below readdirSync statSync_isDirectory path_join dir d ->
  existsSync d = true ->
  readdirSync d = Ok all_items ->
  (forall d' w, below readdirSync statSync_isDirectory path_join dir d' ->
     match fst (descend d' w) with
     | Thrown message =>
         fs_failure existsSync readdirSync statSync_isDirectory path_join
           dir message
     | Exited _ => False
     | Done _ | OutOfFuel => True
     end) ->
  forall items acc w,
    incl items all_items ->
    match fst (each descend d items acc w) with
    | Thrown message =>
        fs_failure existsSync readdirSync statSync_isDirectory path_join
          dir message
    | Exited _ => False
    | Done _ | OutOfFuel => True
    end.
Proof.
  intros Hd Hex Hread Hdesc. induction items as [|item items IH];
    intros acc w Hincl; cbn [each_item]; [exact I|].
  assert (In item all_items) as Hitem by (apply Hincl; now left).
  assert (incl items all_items) as Hincl'
    by (intros x Hx; apply Hincl; now right).
  unfold bind at 1.
  destruct (statSync_isDirectory (path_join d item)) as [[|]|m] eqn:Est;
    cbn [lift].
  - unfold bind at 1.
    assert (below readdirSync statSync_isDirectory path_join dir
              (path_join d item)) as Hsub
      by (now apply (below_entry _ _ _ _ d all_items item)).
    specialize (Hdesc (path_join d item) w Hsub).
    destruct (descend (path_join d item) w) as [[sub| | |] w1];
      cbn [fst] in *; try assumption.
    now apply IH.
  - destruct (endsWith item (u ".js")); now apply IH.
  - cbn [fst]. exists d. split; [assumption|]. split; [assumption|].
    right. now exists all_items, item.
Qed.

Lemma getAllJsFiles_from_fs (dir : jsstring) (fuel : nat) :
  forall d w,
    below readdirSync statSync_isDirectory path_join dir d ->
    match fst (walk fuel d w) with
    | Thrown message =>
        fs_failure existsSync readdirSync statSync_isDirectory path_join
          dir message
    | Exited _ => False
    | Done _ | OutOfFuel => True
    end.
Proof.
  induction fuel as [|fuel IH]; intros d w Hd; [exact I|].
  rewrite getAllJsFiles_step.
  destruct (existsSync d) eqn:Hex; cbn [negb]; [|exact I].
  unfold bind at 1.
  destruct (readdirSync d) as [items|m] eqn:Eread; cbn [lift].
  - now apply (each_item_from_fs (walk fuel) dir d items Hd Hex Eread IH),
      incl_refl.
  - cbn [fst]. exists d. split; [assumption|]. split; [assumption|]. now left.
Qed.

(** X25. The walk throws only what [fs] throws, and it never ends the
    process: an exception that ends it is the one of [readdirSync] on a
    directory the walk came to, or the one of [statSync] on an entry listed
    in such a directory. *)
Theorem getAllJsFiles_throws_from_fs (fuel : nat) (dir : jsstring) (w : world) :
  match fst (walk fuel dir w) with
  | Thrown message =>
      exists d,
        below readdirSync statSync_isDirectory path_join dir d
        /\ existsSync d = true
        /\ (readdirSync d = Err message
            \/ exists items item,
                 readdirSync d = Ok items /\ In item items
                 /\ statSync_isDirectory (path_join d item) = Err message)
  | Exited _ => False
  | Done _ | OutOfFuel => True
  end.
Proof. apply (getAllJsFiles_from_fs dir fuel dir w), below_here. Qed.

End Walk.

Lemma getAllJsFiles_returns_js_witness :
  Forall (listed_js (fun _ => Ok [u "a.js"; u "b.txt"]) (fun _ => Ok false)
            join_slash) [u "src/a.js"].
Proof.
  apply (getAllJsFiles_returns_js (fun _ => true)
           (fun _ => Ok [u "a.js"; u "b.txt"]) (fun _ => Ok false) join_slash
           1 (u "src") world0 world0).
  vm_compute. reflexivity.
Defined.

Lemma getAllJsFiles_flat_witness :
  getAllJsFiles (fun _ => true) (fun _ => Ok [u "a.js"; u "b.txt"; u "c.js"])
    (fun _ => Ok false) join_slash 1 (u "src") world0
  = (Done [u "src/a.js"; u "src/c.js"], world0).
Proof.
  apply (getAllJsFiles_flat (fun _ => true)
           (fun _ => Ok [u "a.js"; u "b.txt"; u "c.js"]) (fun _ => Ok false)
           join_slash 0 (u "src") [u "a.js"; u "b.txt"; u "c.js"] world0);
    reflexivity.
Defined.

(** ** [extractPaths] *)

Lemma extract_steps_NoDup (ms : list piece) (acc : list jsstring) :
  NoDup acc -> NoDup (fold_left extract_step ms acc).
Proof.
  revert acc; induction ms as [|m ms IH]; intros acc H; [exact H|].
  cbn [fold_left]. apply IH. destruct m as [c|w path]; [exact H|].
  cbn [extract_step]. destruct (valid_path path); [|exact H].
  now apply Set_add_NoDup.
Qed.

(** X6. [extractPaths] returns every path once, however often the literal
    occurs in the content. *)
Theorem extractPaths_no_duplicates (content : jsstring) :
  NoDup (extractPaths content).
Proof. apply extract_steps_NoDup. constructor. Qed.

(** X7. A content without the marker [/:], or without any quote character,
    yields no path. *)
Theorem extractPaths_needs_marker (content : jsstring) :
  includes content (u "/:") = false
  \/ Forall (fun c => is_quote c = false) content ->
  extractPaths content = [].
Proof.
  intros H. destruct (extractPaths content) as [|p l] eqn:E; [reflexivity|].
  assert (In p (extractPaths content)) as Hin by (rewrite E; now left).
  apply extractPaths_in in Hin as (Hv & pre & suf & rest & -> & Hr).
  apply run_pathRegex in Hr
    as (q1 & q2 & a & b & c & -> & Hq1 & _ & Hp & _).
  destruct H as [H | H].
  - assert (includes (pre ++ q1 :: p ++ q2 :: rest) (u "/:") = true) as Hi;
      [|congruence].
    unfold valid_path in Hv. rewrite !andb_true_iff in Hv.
    destruct Hv as ((((((((((((_ & V2) & _) & _) & _) & _) & _) & _)
                        & _) & _) & _) & _) & _).
    apply includes_spec in V2 as (x & y & ->). apply includes_spec.
    exists (pre ++ q1 :: x), (y ++ q2 :: rest).
    rewrite <- ?app_assoc. cbn [app]. now rewrite <- ?app_assoc.
  - rewrite Forall_forall in H. specialize (H q1).
    rewrite H in Hq1; [discriminate|]. apply in_or_app. right. now left.
Qed.

Lemma extractPaths_needs_marker_witness :
  extractPaths (u "const base = '/static/img'; // no parameter here") = [].
Proof. apply extractPaths_needs_marker. left. vm_compute. reflexivity. Defined.

(** The order in which the matcher tries the repetitions of a class. *)
Section QuantifierOrder.
Context {R : Type}.
Variable p : char -> bool.
Variable inG : bool.
Variable k : jsstring -> jsstring -> option R.

Lemma star_greedy_stop (cap rest : jsstring) :
  head_is p rest = false -> star_greedy p inG k cap rest = k cap rest.
Proof. destruct rest as [|c rest]; cbn; [reflexivity | now intros ->]. Qed.

Lemma star_greedy_longest (a rest cap : jsstring) (r : R) :
  all p a -> head_is p rest = false ->
  k (pushes inG cap a) rest = Some r ->
  star_greedy p inG k cap (a ++ rest) = Some r.
Proof.
  intros Ha Hrest. revert cap; induction Ha as [|c a Hc Ha IH]; intros cap Hk.
  - rewrite pushes_nil in Hk. cbn [app]. now rewrite star_greedy_stop.
  - cbn [app star_greedy]. rewrite Hc, IH; [reflexivity|].
    now rewrite pushes_cons.
Qed.

Lemma star_greedy_backoff (a rest cap : jsstring) (x : char) (r : R) :
  all p a -> p x = true -> head_is p rest = false ->
  k (pushes inG cap (a ++ [x])) rest = None ->
  k (pushes inG cap a) (x :: rest) = Some r ->
  star_greedy p inG k cap (a ++ x :: rest) = Some r.
Proof.
  intros Ha Hx Hrest. revert cap; induction Ha as [|c a Hc Ha IH];
    intros cap Hnone Hsome.
  - rewrite pushes_nil in Hsome. cbn [app star_greedy] in *. rewrite Hx.
    rewrite star_greedy_stop by assumption.
    replace (push inG cap x) with (pushes inG cap [x]) by reflexivity.
    now rewrite Hnone.
  - cbn [app star_greedy]. rewrite Hc, IH; [reflexivity | |];
      now rewrite pushes_cons.
Qed.

Lemma star_lazy_until (c rest cap : jsstring) :
  all p c -> head_is p rest = false ->
  (forall c1 d c2, c = c1 ++ d :: c2 ->
     k (pushes inG cap c1) (d :: c2 ++ rest) = None) ->
  star_lazy p inG k cap (c ++ rest) = k (pushes inG cap c) rest.
Proof.
  intros Hc Hrest. revert cap; induction Hc as [|d c Hd Hc IH]; intros cap Hk.
  - rewrite pushes_nil. destruct rest as [|e rest]; cbn [app star_lazy].
    + now destruct (k cap []).
    + cbn [head_is] in Hrest. rewrite Hrest. now destruct (k cap (e :: rest)).
  - cbn [app star_lazy].
    pose proof (Hk [] d c eq_refl) as H0. rewrite pushes_nil in H0.
    cbn [app] in H0. rewrite H0, Hd, IH; [now rewrite pushes_cons|].
    intros c1 e c2 ->. rewrite pushes_cons.
    apply (Hk (d :: c1) e c2). reflexivity.
Qed.
End QuantifierOrder.

Lemma is_quote_not_path (q : char) : is_quote q = true -> is_path q = false.
Proof.
  unfold is_quote. rewrite !orb_true_iff, !is_ch_eq, char_eqb_eq.
  intros [[-> | ->] | ->]; reflexivity.
Qed.

Lemma is_path_not_quote (c : char) : is_path c = true -> is_quote c = false.
Proof.
  intros H. destruct (is_quote c) eqn:E; [|reflexivity].
  apply is_quote_not_path in E. congruence.
Qed.

Lemma not_path_not_name (c : char) : is_path c = false -> is_name c = false.
Proof.
  intros H. destruct (is_name c) eqn:E; [|reflexivity].
  apply is_name_path in E. congruence.
Qed.

(** A literal of the expected form, met at a quote, is matched whole. *)
Lemma run_pathRegex_literal (q1 q2 : char) (a b c post : jsstring) :
  is_quote q1 = true -> is_quote q2 = true ->
  all is_seg a -> b <> [] -> all is_name b -> all is_path c ->
  head_is is_name c = false ->
  let p := ch "/" :: a ++ ch "/" :: ch ":" :: b ++ c in
  run pathRegex false [] (q1 :: p ++ q2 :: post) = Some (p, post).
Proof.
  intros Hq1 Hq2 Ha Hb0 Hb Hc Hhead p. subst p.
  destruct b as [|b0 b]; [easy|]. inversion_clear Hb as [|? ? Hb0' Hb'].
  unfold pathRegex. cbn [run app]. rewrite Hq1.
  replace (is_ch "/" (ch "/")) with true by reflexivity. cbn [push].
  rewrite <- !app_assoc. cbn [app].
  apply star_greedy_backoff; try assumption; try reflexivity.
  cbn [run]. replace (is_ch "/" (ch "/")) with true by reflexivity.
  replace (is_ch ":" (ch ":")) with true by reflexivity.
  rewrite Hb0'.
  assert (head_is is_name (c ++ q2 :: post) = false) as Hstop.
  { destruct c as [|c0 c]; [|exact Hhead]. cbn.
    apply not_path_not_name. now apply is_quote_not_path. }
  rewrite <- (app_assoc b c).
  apply (star_greedy_longest _ _ _ b (c ++ q2 :: post)); [exact Hb' | exact Hstop |].
  cbv beta. rewrite star_lazy_until; [ | exact Hc | | ].
  - rewrite Hq2. f_equal. f_equal. cbn [push pushes app].
    rewrite <- ?app_assoc. cbn [app]. now rewrite <- ?app_assoc.
  - cbn. now apply is_quote_not_path.
  - intros c1 d c2 ->.
    apply Forall_app in Hc as [_ Hd]. inversion_clear Hd as [|? ? Hd' _].
    now rewrite (is_path_not_quote _ Hd').
Qed.

Lemma pieces_before_quote (pre s : jsstring) :
  Forall (fun x => is_quote x = false) pre ->
  pieces pathRegex (pre ++ s) 0 = map Gap pre ++ pieces pathRegex s 0.
Proof.
  induction 1 as [|x pre Hx Hpre IH]; [reflexivity|].
  cbn [app pieces map]. unfold pathRegex at 1. cbn [run]. rewrite Hx.
  now rewrite IH.
Qed.

Lemma extract_steps_keep (ms : list piece) (acc : list jsstring) (x : jsstring) :
  In x acc -> In x (fold_left extract_step ms acc).
Proof.
  revert acc; induction ms as [|m ms IH]; intros acc H; [exact H|].
  cbn [fold_left]. apply IH. destruct m as [c|w path]; [exact H|].
  cbn [extract_step]. destruct (valid_path path); [|exact H].
  apply Set_add_in. now left.
Qed.

Lemma extract_steps_gaps (pre : jsstring) (ms : list piece) (acc : list jsstring) :
  fold_left extract_step (map Gap pre ++ ms) acc = fold_left extract_step ms acc.
Proof. induction pre as [|c pre IH]; [reflexivity | exact IH]. Qed.

(** X8. A route literal that the validation accepts is found: when the
    content up to the literal holds no quote character, and the literal is
    a quote, then [/], segment characters, [/:], a parameter name, more
    path characters, and a quote again, its interior is among the paths
    returned. *)
Theorem extractPaths_finds_literal
    (pre post a b c : jsstring) (q1 q2 : char) :
  Forall (fun x => is_quote x = false) pre ->
  is_quote q1 = true -> is_quote q2 = true ->
  all is_seg a -> b <> [] -> all is_name b -> all is_path c ->
  head_is is_name c = false ->
  let p := ch "/" :: a ++ ch "/" :: ch ":" :: b ++ c in
  valid_path p = true ->
  In p (extractPaths (pre ++ q1 :: p ++ q2 :: post)).
Proof.
  intros Hpre Hq1 Hq2 Ha Hb0 Hb Hc Hhead p Hv.
  unfold extractPaths. rewrite pieces_before_quote by assumption.
  rewrite extract_steps_gaps. cbn [pieces].
  change (run pathRegex false [] (q1 :: p ++ q2 :: post))
    with (run pathRegex false [] (q1 :: (ch "/" :: a ++ ch "/" :: ch ":" :: b ++ c)
                                        ++ q2 :: post)).
  rewrite run_pathRegex_literal by assumption.
  cbn [fold_left extract_step]. fold p. rewrite Hv, cleanPath_same.
  apply extract_steps_keep. now left.
Qed.

Lemma extractPaths_finds_literal_witness :
  In (u "/api/v1/users/:userId/posts")
    (extractPaths (u "router.get(`/api/v1/users/:userId/posts`, list)")).
Proof.
  apply (extractPaths_finds_literal (u "router.get(") (u ", list)")
           (u "api/v1/users") (u "userId") (u "/posts") (ch "`") (ch "`"));
    try reflexivity; try discriminate;
    repeat (constructor; try reflexivity).
Defined.

(** ** [replacePaths] *)

Lemma substituted_shape (ts1 ts2 : list token) (i : nat) :
  shape ts1 = shape ts2 -> substituted ts1 i = substituted ts2 i.
Proof.
  revert ts2 i; induction ts1 as [|t1 ts1 IH]; intros [|t2 ts2] i H;
    try discriminate; [reflexivity|].
  destruct t1 as [c1|n1], t2 as [c2|n2]; try discriminate;
    cbn [shape map] in H; injection H as H; cbn [substituted].
  - subst. f_equal. now apply IH.
  - f_equal. now apply IH.
Qed.

(** X9. The URL does not depend on how the parameters are called: two
    templates that differ in parameter names only give the same URL, so
    they fall together when the URLs are deduplicated. *)
Theorem replacePaths_ignores_names (ts1 ts2 : list token) (domain : jsstring) :
  well_formed ts1 = true -> well_formed ts2 = true -> shape ts1 = shape ts2 ->
  replacePaths (template_of ts1) domain = replacePaths (template_of ts2) domain.
Proof.
  intros H1 H2 Hs. rewrite !replacePaths_eq. cbv zeta.
  now rewrite (substitute_tokens _ _ H1), (substitute_tokens _ _ H2),
    (substituted_shape _ _ _ Hs).
Qed.

Lemma replacePaths_ignores_names_witness :
  replacePaths (u "/user/:id/edit") (u "https://example.com")
  = replacePaths (u "/user/:userName/edit") (u "https://example.com").
Proof.
  apply (replacePaths_ignores_names
           (map Chr (u "/user/") ++ Param (u "id") :: map Chr (u "/edit"))
           (map Chr (u "/user/") ++ Param (u "userName") :: map Chr (u "/edit")));
    reflexivity.
Defined.

(** X10. One trailing slash on the domain makes no difference: for a
    domain that does not end in a slash, the URL is the same with and
    without a slash added to it, and it starts with the domain as given. *)
Theorem replacePaths_domain_slash (pathStr domain : jsstring) :
  (forall t, domain <> t ++ u "/") ->
  replacePaths pathStr (domain ++ u "/") = replacePaths pathStr domain
  /\ exists t, replacePaths pathStr domain = domain ++ ch "/" :: t.
Proof.
  intros H. rewrite !replacePaths_eq. cbv zeta.
  rewrite replace_suffix_app by discriminate.
  rewrite (replace_suffix_none _ _ _ H). split; [reflexivity|].
  destruct (startsWith _ (u "/")) eqn:E.
  - apply startsWith_spec in E as [t E]. rewrite E. now exists t.
  - now eexists.
Qed.

Lemma replacePaths_domain_slash_witness :
  replacePaths (u "/a/:b") (u "https://example.com" ++ u "/")
  = replacePaths (u "/a/:b") (u "https://example.com").
Proof.
  apply replacePaths_domain_slash. intros t E.
  apply (f_equal (@rev char)) in E. rewrite rev_app_distr in E.
  discriminate E.
Defined.

(** X11. A wildcard segment [/*] at the end of a template is dropped from
    the URL: the URL is the one of the template without it. *)
Theorem replacePaths_drops_wildcard (ts : list token) (domain : jsstring) :
  well_formed ts = true ->
  let replaced := substituted ts 0 in
  replacePaths (template_of ts ++ u "/*") domain
  = replace_suffix (u "/") [] domain
    ++ (if startsWith replaced (u "/") then replaced else u "/" ++ replaced).
Proof.
  intros Hwf replaced.
  assert (well_formed (ts ++ map Chr (u "/*")) = true) as Hwf'
    by (apply well_formed_app; [assumption | reflexivity | reflexivity]).
  rewrite replacePaths_eq. cbv zeta.
  rewrite <- (template_chars (u "/*")), <- template_app.
  rewrite (substitute_tokens _ _ Hwf'), substituted_app, substituted_chars.
  now rewrite replace_suffix_app by discriminate.
Qed.

Lemma replacePaths_drops_wildcard_witness :
  replacePaths (u "/files/:name" ++ u "/*") (u "https://example.com")
  = u "https://example.com/files/magun4".
Proof.
  refine (eq_trans
    (replacePaths_drops_wildcard
       (map Chr (u "/files/") ++ [Param (u "name")]) (u "https://example.com")
       eq_refl) _).
  vm_compute. reflexivity.
Defined.

Lemma u_injective (s t : string) : u s = u t -> s = t.
Proof.
  unfold u. intros H.
  rewrite <- (string_of_list_ascii_of_string s),
          <- (string_of_list_ascii_of_string t).
  f_equal. revert H. generalize (list_ascii_of_string s) as a.
  generalize (list_ascii_of_string t) as b.
  intros b a; revert b; induction a as [|x a IH]; intros [|y b] H;
    try discriminate; [reflexivity|].
  cbn [map] in H. injection H as Hx Hab. f_equal; [|now apply IH].
  unfold ch in Hx. rewrite <- (ascii_N_embedding x), <- (ascii_N_embedding y).
  now rewrite Hx.
Qed.

Lemma to_uint_nonnil (n : nat) : Nat.to_uint n <> Decimal.Nil.
Proof.
  rewrite <- (DecimalNat.Unsigned.of_to n) at 1.
  rewrite DecimalNat.Unsigned.to_of. apply DecimalFacts.unorm_nonnil.
Qed.

Lemma decimal_injective (n m : nat) : decimal n = decimal m -> n = m.
Proof.
  unfold decimal. intros H. apply u_injective in H.
  apply DecimalNat.Unsigned.to_uint_inj.
  pose proof (NilZero.usu _ (to_uint_nonnil n)) as Hn.
  pose proof (NilZero.usu _ (to_uint_nonnil m)) as Hm.
  rewrite H in Hn. congruence.
Qed.

Lemma placeholder_inj (i j : nat) : placeholder i = placeholder j -> i = j.
Proof.
  unfold placeholder.
  destruct i as [|i], j as [|j]; cbn [Nat.eqb]; intros H; [reflexivity | | |].
  - apply (f_equal (@length char)) in H. rewrite length_app in H.
    cbn in H. lia.
  - apply (f_equal (@length char)) in H. rewrite length_app in H.
    cbn in H. lia.
  - apply app_inv_head in H. now apply decimal_injective.
Qed.

(** X12. Different parameter positions get different placeholders, so the
    slots of one URL can be told apart. *)
Theorem placeholders_distinct (i j : nat) :
  i <> j -> placeholder i <> placeholder j.
Proof. intros H E. apply H. now apply placeholder_inj. Qed.

Lemma placeholders_distinct_witness : placeholder 1 <> placeholder 10.
Proof. apply placeholders_distinct. discriminate. Defined.

Lemma well_formed_plain (s : jsstring) :
  ~ In (ch ":") s -> well_formed (map Chr s) = true.
Proof.
  induction s as [|c s IH]; intros H; [reflexivity|].
  cbn [map well_formed]. rewrite IH by (intros Hin; apply H; now right).
  destruct (is_ch ":" c) eqn:E; [|reflexivity].
  apply is_ch_eq in E. destruct H. now left.
Qed.

(** X13. A path without a colon has nothing to substitute: it goes into
    the URL as it is, apart from the clean-up at its two ends. *)
Theorem replacePaths_without_parameters (pathStr domain : jsstring) :
  ~ In (ch ":") pathStr ->
  let withoutWildcard := replace_suffix (u "/*") [] pathStr in
  replacePaths pathStr domain
  = replace_suffix (u "/") [] domain
    ++ (if startsWith withoutWildcard (u "/") then withoutWildcard
        else u "/" ++ withoutWildcard).
Proof.
  intros H withoutWildcard. rewrite replacePaths_eq. cbv zeta.
  assert (replace_all paramRegex next_param 0 pathStr = pathStr) as ->;
    [|reflexivity].
  rewrite <- (template_chars pathStr) at 1.
  now rewrite (substitute_tokens _ _ (well_formed_plain _ H)), substituted_chars.
Qed.

Lemma replacePaths_without_parameters_witness :
  replacePaths (u "/static/img") (u "https://example.com")
  = u "https://example.com/static/img".
Proof.
  refine (eq_trans
    (replacePaths_without_parameters (u "/static/img") (u "https://example.com") _) _).
  - vm_compute. intuition discriminate.
  - vm_compute. reflexivity.
Defined.

(** ** [processUrlList] *)

Section ListLoop.
Variable new_URL : jsstring -> option URL.

Lemma process_line_done (output : list jsstring) (line : jsstring) (w : world) :
  exists output',
    process_line new_URL output line w = (Done output', w)
    /\ (output' = output \/ exists url, output' = Set_add output url).
Proof.
  unfold process_line. cbv zeta.
  destruct (negb (truthy (Some (trim line)))); [exists output; split; [reflexivity | now left]|].
  destruct (negb (test_at_start httpRegex (trim line)));
    [exists output; split; [reflexivity | now left]|].
  destruct (negb (includes (trim line) (u "?"))); [exists output; split; [reflexivity | now left]|].
  unfold try_catch, bind, lift.
  destruct (new_URL (trim line)) as [urlObj|]; [|exists output; split; [reflexivity | now left]].
  destruct (canonicalUrl urlObj) as [finalUrl|]; [|exists output; split; [reflexivity | now left]].
  exists (Set_add output finalUrl). split; [reflexivity|]. right. now exists finalUrl.
Qed.

Lemma Set_add_extends (s : list jsstring) (x : jsstring) :
  exists more, Set_add s x = s ++ more.
Proof.
  unfold Set_add. destruct (Set_has s x); [exists []; now rewrite app_nil_r|].
  now exists [x].
Qed.

(** X14. The loop over the lines never throws and never exits, whatever
    the lines hold; it prints nothing and writes nothing; the set it
    returns starts with the set it was given and has no duplicates. *)
Theorem process_lines_total (lines output : list jsstring) (w : world) :
  exists more,
    process_lines new_URL lines output w = (Done (output ++ more), w)
    /\ (NoDup output -> NoDup (output ++ more)).
Proof.
  revert output w; induction lines as [|line lines IH]; intros output w.
  - exists []. rewrite app_nil_r. now split.
  - cbn [process_lines]. unfold bind.
    destruct (process_line_done output line w) as (o1 & -> & Ho1).
    destruct (IH o1 w) as (m2 & -> & Hnd).
    destruct Ho1 as [-> | [url ->]]; [now exists m2|].
    destruct (Set_add_extends output url) as [m1 E].
    exists (m1 ++ m2). rewrite app_assoc, <- E. split; [reflexivity|].
    intros H. apply Hnd. now apply Set_add_NoDup.
Qed.

End ListLoop.

(** X15. Two URLs with the same origin, path and fragment whose query keys
    are the same up to their order (the values may differ) get the same
    canonical form, provided no key is the name of a property of
    [Object.prototype]. *)
Theorem canonicalUrl_order_insensitive (url1 url2 : URL) :
  origin url1 = origin url2 -> pathname url1 = pathname url2 ->
  hash url1 = hash url2 ->
  Permutation (map fst (searchParams url1)) (map fst (searchParams url2)) ->
  Forall (fun kv => on_prototype (fst kv) = false) (searchParams url1) ->
  canonicalUrl url1 = canonicalUrl url2.
Proof.
  intros Ho Hp Hh Hperm Hkeys. unfold canonicalUrl.
  assert (length (searchParams url1) = length (searchParams url2)) as Hlen
    by (rewrite <- (length_map fst (searchParams url1)),
                <- (length_map fst (searchParams url2));
        now apply Permutation_length).
  assert (Forall (fun kv => on_prototype (fst kv) = false) (searchParams url2))
    as Hkeys2.
  { apply Forall_map with (f := fst) (P := fun k => on_prototype k = false).
    apply (Permutation_Forall Hperm).
    now apply Forall_map with (f := fst) (P := fun k => on_prototype k = false). }
  rewrite Ho, Hp, Hh, Hlen.
  destruct (canonParams_sorted _ Hkeys) as [-> _].
  destruct (canonParams_sorted _ Hkeys2) as [-> _].
  now rewrite (sort_permutation _ _ Hperm).
Qed.

Lemma canonicalUrl_order_insensitive_witness :
  canonicalUrl (mkURL (u "https://x.com") (u "/a") []
                  [(u "b", u "1"); (u "a", u "2"); (u "b", u "3")])
  = canonicalUrl (mkURL (u "https://x.com") (u "/a") []
                    [(u "a", u "9"); (u "b", u "8"); (u "b", u "7")]).
Proof.
  apply canonicalUrl_order_insensitive; try reflexivity.
  - cbn [map fst searchParams]. apply perm_swap.
  - repeat constructor.
Defined.

(** ** Lines and white space *)

Lemma pieces_crlf (rest : jsstring) :
  pieces newlineRegex (CR :: LF :: rest) 0
  = Hit [CR; LF] [] :: pieces newlineRegex rest 0.
Proof.
  cbn [pieces].
  change (run newlineRegex false [] (CR :: LF :: rest)) with (Some (@nil char, rest)).
  cbn [length]. rewrite !Nat.sub_succ_l, Nat.sub_diag by lia.
  reflexivity.
Qed.

(** X16. A list with Windows line ends is split into the same lines as one
    with Unix line ends: for lines without line breaks, joining them with
    carriage return and line feed and splitting at [/\r?\n/] gives them
    back. *)
Theorem split_crlf (l : list jsstring) :
  l <> [] -> Forall no_break l ->
  split newlineRegex (join [CR; LF] l) = l.
Proof.
  unfold split. induction l as [|x l IH]; intros Hne Hall; [easy|].
  inversion_clear Hall as [|? ? Hx Hl].
  destruct l as [|y l].
  - cbn [join]. rewrite <- (app_nil_r x) at 1.
    rewrite (pieces_no_break _ _ Hx), split_in_gaps. reflexivity.
  - change (join [CR; LF] (x :: y :: l))
      with (x ++ CR :: LF :: join [CR; LF] (y :: l)).
    rewrite (pieces_no_break _ _ Hx), split_in_gaps, pieces_crlf.
    cbn [split_in app].
    rewrite IH; [reflexivity | discriminate | assumption].
Qed.

Lemma split_crlf_witness :
  split newlineRegex (u "https://a.io/?x=1" ++ [CR; LF] ++ u "https://b.io/?y=2")
  = [u "https://a.io/?x=1"; u "https://b.io/?y=2"].
Proof.
  apply (split_crlf [u "https://a.io/?x=1"; u "https://b.io/?y=2"]);
    [discriminate|].
  repeat constructor; vm_compute; intuition discriminate.
Defined.

Lemma trimStart_head (s : jsstring) : head_is is_space (trimStart s) = false.
Proof.
  induction s as [|c s IH]; [reflexivity|]. cbn [trimStart].
  destruct (is_space c) eqn:E; [exact IH | exact E].
Qed.

Lemma trimStart_fix (s : jsstring) :
  head_is is_space s = false -> trimStart s = s.
Proof. destruct s as [|c s]; cbn; [reflexivity | now intros ->]. Qed.

Lemma trimStart_suffix (s : jsstring) : exists sp, s = sp ++ trimStart s.
Proof.
  induction s as [|c s [sp IH]]; [now exists []|]. cbn [trimStart].
  destruct (is_space c); [|now exists []].
  exists (c :: sp). cbn [app]. now f_equal.
Qed.

Lemma trim_trimmed (s : jsstring) : trimmed (trim s).
Proof.
  unfold trimmed, trim. rewrite rev_involutive. split; [|apply trimStart_head].
  destruct (trimStart_suffix (rev (trimStart s))) as [sp E].
  apply (f_equal (@rev char)) in E. rewrite rev_involutive, rev_app_distr in E.
  pose proof (trimStart_head s) as Hh. rewrite E in Hh.
  destruct (rev (trimStart (rev (trimStart s)))); [reflexivity | exact Hh].
Qed.

Lemma trim_fix (s : jsstring) : trimmed s -> trim s = s.
Proof.
  intros [H1 H2]. unfold trim.
  now rewrite (trimStart_fix _ H1), (trimStart_fix _ H2), rev_involutive.
Qed.

(** X17. White space around a line of the URL list makes no difference:
    a line is treated as the line with the white space at its two ends
    removed, and removing it twice is removing it once. *)
Theorem process_line_ignores_space
    (new_URL : jsstring -> option URL) (output : list jsstring)
    (line : jsstring) (w : world) :
  trim (trim line) = trim line
  /\ process_line new_URL output (trim line) w
     = process_line new_URL output line w.
Proof.
  assert (trim (trim line) = trim line) as E by apply trim_fix, trim_trimmed.
  split; [exact E|]. unfold process_line. now rewrite E.
Qed.

(** ** List mode and [main] *)

Section MainFacts.
Variable existsSync : jsstring -> bool.
Variable readdirSync : jsstring -> result (list jsstring).
Variable statSync_isDirectory : jsstring -> result bool.
Variable readFileSync : jsstring -> result jsstring.
Variable writeFileSync : jsstring -> jsstring -> result unit.
Variable path_join : jsstring -> jsstring -> jsstring.
Variable path_basename : jsstring -> jsstring.
Variable new_URL : jsstring -> option URL.

#[local] Abbreviation list_mode :=
  (processUrlList existsSync readFileSync writeFileSync new_URL).
#[local] Abbreviation run_main :=
  (main existsSync readdirSync statSync_isDirectory readFileSync
     writeFileSync path_join path_basename new_URL).

Lemma process_lines_world (lines output : list jsstring) (w : world) :
  exists out, process_lines new_URL lines output w = (Done out, w).
Proof.
  revert output; induction lines as [|line lines IH]; intros output;
    [now exists output|].
  cbn [process_lines]. unfold bind.
  destruct (process_line_done new_URL output line w) as (o1 & -> & _).
  apply IH.
Qed.

Lemma process_lines_all_skipped (lines output : list jsstring) (w : world) :
  Forall (passed_over new_URL) lines ->
  process_lines new_URL lines output w = (Done output, w).
Proof.
  induction 1 as [|line lines Hline Hlines IH]; [reflexivity|].
  cbn [process_lines]. unfold bind.
  now rewrite (process_line_skip new_URL line output w Hline).
Qed.

(** X18. When every line of the list is one that the loop passes over
    (an empty file among them), list mode creates no file and reports that
    no URL with query parameters was found. *)
Theorem processUrlList_nothing_found (filePath text : jsstring) (w : world) :
  existsSync filePath = true ->
  readFileSync filePath = Ok text ->
  Forall (passed_over new_URL) (split newlineRegex text) ->
  list_mode filePath w
  = (Done tt,
     mkWorld
       (stdout w
        ++ [u "No URLs with query parameters found in the provided list."])
       (stderr w) (written w)).
Proof.
  intros Hex Hread Hall. unfold processUrlList. rewrite Hex. cbn [negb].
  unfold bind at 1. rewrite Hread. cbn [lift].
  unfold bind at 1. rewrite (process_lines_all_skipped _ _ _ Hall).
  reflexivity.
Qed.

(** X19. In list mode a file that does not exist ends the run at once:
    the error goes to standard error, the exit status is 1, nothing is
    written, and the closing line of [main] is not printed. *)
Theorem main_urls_file_missing
    (fuel : nat) (argv : list jsstring) (filePath : jsstring) (w : world) :
  urlsFile (parseArgs argv) = Some filePath ->
  existsSync filePath = false ->
  run_main fuel argv w
  = (Exited 1,
     mkWorld
       (stdout w ++ [u "Processing URL list: " ++ filePath])
       (stderr w ++ [u "Error: URLs file " ++ filePath ++ u " does not exist"])
       (written w))
  /\ exit_status (fst (run_main fuel argv w)) = Some 1.
Proof.
  intros Hurls Hex.
  assert (run_main fuel argv w
          = (Exited 1,
             mkWorld
               (stdout w ++ [u "Processing URL list: " ++ filePath])
               (stderr w
                ++ [u "Error: URLs file " ++ filePath ++ u " does not exist"])
               (written w))) as E.
  { destruct (parseArgs_truthy argv) as (_ & _ & [Hn | Ht]);
      rewrite Hurls in *; [discriminate|].
    destruct filePath as [|c f]; [discriminate|].
    unfold main. rewrite Hurls. unfold bind at 1. cbn [console_log].
    unfold bind at 1. unfold processUrlList. rewrite Hex. reflexivity. }
  split; [exact E | now rewrite E].
Qed.

(** X20. Without [-urls], and with [-js] or [-d] missing, [main] prints
    the five lines of the usage text and exits with status 1; it reads no
    directory and writes no file. *)
Theorem main_usage (fuel : nat) (argv : list jsstring) (w : world) :
  urlsFile (parseArgs argv) = None ->
  jsDir (parseArgs argv) = None \/ domain (parseArgs argv) = None ->
  run_main fuel argv w
  = (Exited 1,
     mkWorld
       (stdout w
        ++ [ u "Usage: cspt -js <js_files_directory> -d <domain>";
             u "       cspt -urls <file_with_urls>";
             u "Examples:";
             u "  cspt -js ./JS_files -d https://example.com";
             u "  cspt -urls Waymore.txt" ])
       (stderr w) (written w)).
Proof.
  intros Hurls Hmissing. unfold main. rewrite Hurls.
  assert (match jsDir (parseArgs argv), domain (parseArgs argv) with
          | Some (_ :: _), Some (_ :: _) => false
          | _, _ => true
          end = true) as Hcase
    by (destruct Hmissing as [-> | ->];
        [reflexivity | destruct (jsDir (parseArgs argv)) as [[|? ?]|]; reflexivity]).
  destruct (jsDir (parseArgs argv)) as [[|c d]|];
    destruct (domain (parseArgs argv)) as [[|c' d']|]; try discriminate Hcase;
    cbn; rewrite <- !app_assoc; reflexivity.
Qed.

Lemma processUrlList_written (filePath : jsstring) (w : world) :
  exists o w1,
    list_mode filePath w = (o, w1)
    /\ (written w1 = written w
        \/ exists content,
             written w1 = written w ++ [(u "CSPT_magun4_waymore.txt", content)]).
Proof.
  unfold processUrlList. destruct (existsSync filePath); cbn [negb];
    [|do 2 eexists; split; [reflexivity | left; reflexivity]].
  unfold bind at 1. destruct (readFileSync filePath) as [text|m]; cbn [lift];
    [|do 2 eexists; split; [reflexivity | left; reflexivity]].
  unfold bind at 1.
  destruct (process_lines_world (split newlineRegex text) [] w) as [out ->].
  destruct (length out =? 0);
    [do 2 eexists; split; [reflexivity | left; reflexivity]|].
  unfold write_file, bind.
  destruct (writeFileSync (u "CSPT_magun4_waymore.txt") (join [LF] out))
    as [[]|m]; cbn [lift];
    do 2 eexists; (split; [reflexivity|]);
    [right; eexists; reflexivity | left; reflexivity].
Qed.

(** X21. [main] writes no file besides [paths.txt], [CSPT_magun4.txt] and
    [CSPT_magun4_waymore.txt], in whatever way the run ends. *)
Theorem main_writes_known_files (fuel : nat) (argv : list jsstring) (w : world) :
  Forall (fun f => In (fst f) output_names) (written w) ->
  Forall (fun f => In (fst f) output_names) (written (snd (run_main fuel argv w))).
Proof.
  intros Hw. unfold main.
  destruct (parseArgs_truthy argv) as (_ & _ & Hu).
  destruct (urlsFile (parseArgs argv)) as [[|c f]|] eqn:Hurls.
  - destruct Hu as [Hu | Hu]; discriminate Hu.
  - unfold bind at 1. cbn [console_log]. unfold bind at 1.
    match goal with
    | |- context [processUrlList _ _ _ _ (c :: f) ?w0] =>
        destruct (processUrlList_written (c :: f) w0)
          as (o & w1 & -> & [E | [content E]]);
        destruct o as [[]| | |]; cbn [snd written console_log] in *;
        rewrite E; try exact Hw;
        apply Forall_app; (split; [exact Hw|]);
        (apply Forall_cons; [right; right; left; reflexivity | apply Forall_nil])
    end.
  - destruct (jsDir (parseArgs argv)) as [[|c d]|];
      destruct (domain (parseArgs argv)) as [[|c' d']|]; try exact Hw.
    unfold bind at 1. cbn [console_log]. unfold bind at 1. cbn [console_log].
    unfold bind at 1.
    match goal with
    | |- context [getAllJsFiles _ _ _ _ fuel (c :: d) ?w0] =>
        destruct (getAllJsFiles_quiet existsSync readdirSync statSync_isDirectory
                    path_join fuel (c :: d) w0) as (_ & E1 & _);
        destruct (getAllJsFiles existsSync readdirSync statSync_isDirectory
                    path_join fuel (c :: d) w0) as [[jsFiles| | |] w1];
        cbn [snd written] in *; try (rewrite E1; exact Hw)
    end.
    unfold bind at 1. cbn [console_log]. unfold bind at 1.
    match goal with
    | |- context [scan_files _ _ jsFiles [] ?w0] =>
        destruct (scan_files_collect readFileSync path_basename jsFiles [] w0)
          as (w2 & -> & E2); cbn [written] in E2
    end.
    match goal with
    | |- context [write_results _ ?a ?dm w2] =>
        destruct (write_results_written writeFileSync a dm w2) as [_ ->]
    end.
    rewrite E2, E1. apply Forall_app. split; [exact Hw|].
    destruct (length _ =? 0); [apply Forall_nil|].
    destruct (writeFileSync (u "paths.txt") _); [|apply Forall_nil].
    apply Forall_cons; [left; reflexivity|].
    destruct (writeFileSync (u "CSPT_magun4.txt") _); [|apply Forall_nil].
    apply Forall_cons; [right; left; reflexivity | apply Forall_nil].
Qed.

(** X22. An unreadable file does not stop the scan: its failure is one
    line on standard error, and the set of templates is the one that the
    other files give. *)
Theorem scan_files_skips_unreadable
    (before after allPaths : list jsstring) (bad message : jsstring) (w : world) :
  readFileSync bad = Err message ->
  scan_file readFileSync path_basename allPaths bad w
  = (Done allPaths,
     mkWorld (stdout w)
       (stderr w ++ [u "Error reading " ++ bad ++ u ": " ++ message])
       (written w))
  /\ fst (scan_files readFileSync path_basename (before ++ bad :: after)
            allPaths w)
     = fst (scan_files readFileSync path_basename (before ++ after) allPaths w).
Proof.
  intros Hbad. split.
  - unfold scan_file, try_catch, bind, lift. rewrite Hbad. reflexivity.
  - destruct (scan_files_collect readFileSync path_basename
                (before ++ bad :: after) allPaths w) as (w1 & -> & _).
    destruct (scan_files_collect readFileSync path_basename
                (before ++ after) allPaths w) as (w2 & -> & _).
    cbn [fst]. f_equal. unfold collect.
    rewrite !map_app, !fold_left_app. cbn [map fold_left].
    unfold per_file at 2. rewrite Hbad. reflexivity.
Qed.

End MainFacts.

(** X23. With [-urls] on the command line [-js] and [-d] are ignored: two
    command lines that name the same list give the same run, whatever
    directory and domain they name or leave out, and whatever the directory
    walk would find.  In particular the run is the one of the command line
    that holds [-urls] and the list alone. *)
Theorem main_urls_first
    (existsSync : jsstring -> bool)
    (readdirSync readdirSync' : jsstring -> result (list jsstring))
    (statSync statSync' : jsstring -> result bool)
    (readFileSync : jsstring -> result jsstring)
    (writeFileSync : jsstring -> jsstring -> result unit)
    (path_join path_join' : jsstring -> jsstring -> jsstring)
    (path_basename path_basename' : jsstring -> jsstring)
    (new_URL : jsstring -> option URL)
    (fuel fuel' : nat) (argv argv' : list jsstring) (filePath : jsstring)
    (w : world) :
  urlsFile (parseArgs argv) = Some filePath ->
  urlsFile (parseArgs argv') = Some filePath ->
  main existsSync readdirSync statSync readFileSync writeFileSync path_join
    path_basename new_URL fuel argv w
  = main existsSync readdirSync' statSync' readFileSync writeFileSync
      path_join' path_basename' new_URL fuel' argv' w
  /\ main existsSync readdirSync statSync readFileSync writeFileSync path_join
       path_basename new_URL fuel argv w
     = main existsSync readdirSync' statSync' readFileSync writeFileSync
         path_join' path_basename' new_URL fuel' [u "-urls"; filePath] w.
Proof.
  intros Hurls Hurls'.
  destruct (parseArgs_truthy argv) as (_ & _ & [Hn | Ht]);
    rewrite Hurls in *; [discriminate|].
  assert (urlsFile (parseArgs [u "-urls"; filePath]) = Some filePath) as Halone
    by (unfold parseArgs; rewrite parseArgs_from_cons;
        destruct filePath; [discriminate | reflexivity]).
  destruct filePath as [|c f]; [discriminate|].
  unfold main. now rewrite Hurls, Hurls', Halone.
Qed.

Lemma processUrlList_nothing_found_witness :
  processUrlList (fun _ => true)
    (fun _ => Ok (u "not-a-url" ++ [LF] ++ u "https://x.com/path"))
    (fun _ _ => Ok tt) (fun _ => None) (u "list.txt") world0
  = (Done tt,
     mkWorld [u "No URLs with query parameters found in the provided list."]
       [] []).
Proof.
  apply (processUrlList_nothing_found (fun _ => true)
           (fun _ => Ok (u "not-a-url" ++ [LF] ++ u "https://x.com/path"))
           (fun _ _ => Ok tt) (fun _ => None) (u "list.txt")
           (u "not-a-url" ++ [LF] ++ u "https://x.com/path") world0);
    try reflexivity.
  replace (split newlineRegex (u "not-a-url" ++ [LF] ++ u "https://x.com/path"))
    with [u "not-a-url"; u "https://x.com/path"] by (vm_compute; reflexivity).
  apply Forall_cons; [|apply Forall_cons; [|apply Forall_nil]].
  - right. left. split; vm_compute; reflexivity.
  - right. right. left. vm_compute. intuition discriminate.
Defined.

Lemma main_urls_file_missing_witness :
  exit_status
    (fst (main (fun _ => false) (fun _ => Err []) (fun _ => Err [])
            (fun _ => Err []) (fun _ _ => Ok tt) join_slash (fun p => p) (fun _ => None)
            0 [u "-urls"; u "missing.txt"] world0))
  = Some 1.
Proof.
  apply (main_urls_file_missing (fun _ => false) (fun _ => Err [])
           (fun _ => Err []) (fun _ => Err []) (fun _ _ => Ok tt) join_slash (fun p => p)
           (fun _ => None) 0 [u "-urls"; u "missing.txt"] (u "missing.txt")
           world0); reflexivity.
Defined.

Lemma main_usage_witness :
  exit_status
    (fst (main (fun _ => true) (fun _ => Ok []) (fun _ => Ok false)
            (fun _ => Ok []) (fun _ _ => Ok tt) join_slash (fun p => p) (fun _ => None)
            3 [u "-js"; u "./src"] world0))
  = Some 1.
Proof.
  rewrite (main_usage (fun _ => true) (fun _ => Ok []) (fun _ => Ok false)
             (fun _ => Ok []) (fun _ _ => Ok tt) join_slash (fun p => p) (fun _ => None)
             3 [u "-js"; u "./src"] world0 eq_refl (or_intror eq_refl)).
  reflexivity.
Defined.

Lemma main_writes_known_files_witness :
  Forall (fun f => In (fst f) output_names)
    (written
       (snd (main (fun _ => true) (fun _ => Ok [u "app.js"]) (fun _ => Ok false)
               (fun _ => Ok (u "get('/a/:b')")) (fun _ _ => Ok tt) join_slash (fun p => p)
               (fun _ => None)
               2 [u "-js"; u "./src"; u "-d"; u "https://x.com"] world0))).
Proof.
  apply (main_writes_known_files (fun _ => true) (fun _ => Ok [u "app.js"])
           (fun _ => Ok false) (fun _ => Ok (u "get('/a/:b')")) (fun _ _ => Ok tt) join_slash
           (fun p => p) (fun _ => None) 2
           [u "-js"; u "./src"; u "-d"; u "https://x.com"] world0).
  apply Forall_nil.
Defined.

Lemma scan_files_skips_unreadable_witness :
  let read := fun p : jsstring =>
    if str_eqb p (u "locked.js") then Err (u "EACCES: permission denied")
    else Ok (u "get('/a/:b')") in
  fst (scan_files read (fun p => p) [u "a.js"; u "locked.js"; u "b.js"] []
         world0)
  = fst (scan_files read (fun p => p) [u "a.js"; u "b.js"] [] world0).
Proof.
  cbv zeta.
  apply (scan_files_skips_unreadable
           (fun p : jsstring =>
              if str_eqb p (u "locked.js") then Err (u "EACCES: permission denied")
              else Ok (u "get('/a/:b')"))
           (fun p => p) [u "a.js"] [u "b.js"] [] (u "locked.js")
           (u "EACCES: permission denied") world0).
  reflexivity.
Defined.

Lemma main_urls_first_witness :
  main (fun _ => false) (fun _ => Ok [u "a.js"]) (fun _ => Ok false)
    (fun _ => Err []) (fun _ _ => Ok tt) join_slash (fun p => p)
    (fun _ => None)
    5 [u "-js"; u "./src"; u "-d"; u "https://x.com"; u "-urls"; u "l.txt"]
    world0
  = main (fun _ => false) (fun _ => Err []) (fun _ => Err [])
      (fun _ => Err []) (fun _ _ => Ok tt) (fun a _ => a) (fun _ => [])
      (fun _ => None)
      0 [u "-d"; u "https://y.org"; u "-urls"; u "l.txt"]
      world0.
Proof.
  apply (main_urls_first (fun _ => false) (fun _ => Ok [u "a.js"])
           (fun _ => Err []) (fun _ => Ok false) (fun _ => Err [])
           (fun _ => Err []) (fun _ _ => Ok tt) join_slash (fun a _ => a)
           (fun p => p) (fun _ => []) (fun _ => None) 5 0
           [u "-js"; u "./src"; u "-d"; u "https://x.com"; u "-urls"; u "l.txt"]
           [u "-d"; u "https://y.org"; u "-urls"; u "l.txt"]
           (u "l.txt") world0); reflexivity.
Defined.

(** ** Further witnesses and the counting of keys *)

Lemma paths_txt_lines_witness :
  split newlineRegex (u "/a/:b" ++ [LF] ++ u "/c/:d") = [u "/a/:b"; u "/c/:d"].
Proof.
  refine (eq_trans _
    (eq_trans (paths_txt_lines [u "get('/c/:d'); get('/a/:b')"] _) _)).
  - vm_compute. reflexivity.
  - vm_compute. discriminate.
  - vm_compute. reflexivity.
Defined.

(** X26. For a query none of whose keys is the name of a property of
    [Object.prototype], the canonical parameters are as many as the
    entries; their keys are the keys of the query in increasing order, each
    as often as it occurs; their values are [magun4], [magun4_1], ... in
    this order. *)
Theorem canonParams_counts (entries : list (jsstring * jsstring)) :
  Forall (fun kv => on_prototype (fst kv) = false) entries ->
  let canonParams := canonParams_of entries in
  length canonParams = length entries
  /\ Permutation (map fst entries) (map fst canonParams)
  /\ StronglySorted str_le (map fst canonParams)
  /\ map snd canonParams = map placeholder (seq 0 (length entries)).
Proof.
  intros H canonParams.
  assert (canonParams = inject (sort (map fst entries)) 0) as E.
  { unfold canonParams, canonParams_of, count_keys.
    rewrite keysWithDupes_sorted; [reflexivity | now apply Forall_map]. }
  destruct (inject_values (sort (map fst entries)) 0) as [Hk Hv].
  assert (length (sort (map fst entries)) = length entries) as Hlen
    by (rewrite <- (Permutation_length (sort_perm _)); apply length_map).
  rewrite E, Hk, Hv, Hlen. repeat split.
  - rewrite <- (length_map fst), Hk. exact Hlen.
  - apply sort_perm.
  - apply sort_sorted.
Qed.

Lemma canonParams_counts_witness :
  map snd (canonParams_of [(u "b", u "1"); (u "a", u "2"); (u "b", u "3")])
  = map placeholder (seq 0 3).
Proof.
  apply (canonParams_counts [(u "b", u "1"); (u "a", u "2"); (u "b", u "3")]).
  repeat constructor.
Defined.

(** ** The lines of the two files *)









(** ** How a run in either mode ends *)

Section Endings.
Variable existsSync : jsstring -> bool.
Variable readdirSync : jsstring -> result (list jsstring).
Variable statSync_isDirectory : jsstring -> result bool.
Variable readFileSync : jsstring -> result jsstring.
Variable writeFileSync : jsstring -> jsstring -> result unit.
Variable path_join : jsstring -> jsstring -> jsstring.
Variable path_basename : jsstring -> jsstring.
Variable new_URL : jsstring -> option URL.

#[local] Abbreviation walk :=
  (getAllJsFiles existsSync readdirSync statSync_isDirectory path_join).
#[local] Abbreviation list_mode :=
  (processUrlList existsSync readFileSync writeFileSync new_URL).
#[local] Abbreviation run_main :=
  (main existsSync readdirSync statSync_isDirectory readFileSync
     writeFileSync path_join path_basename new_URL).



(** X29. In list mode a file that exists but cannot be read is not
    handled: the exception of [readFileSync] ends the run, after the first
    line of output; no file is written and the closing line is not
    printed.  (In extraction mode the same failure is caught per file.) *)
Theorem main_urls_file_unreadable
    (fuel : nat) (argv : list jsstring) (filePath message : jsstring)
    (w : world) :
  urlsFile (parseArgs argv) = Some filePath ->
  existsSync filePath = true ->
  readFileSync filePath = Err message ->
  run_main fuel argv w
  = (Thrown message,
     mkWorld (stdout w ++ [u "Processing URL list: " ++ filePath])
       (stderr w) (written w)).
Proof.
  intros Hurls Hex Hread.
  destruct (parseArgs_truthy argv) as (_ & _ & [Hn | Ht]);
    rewrite Hurls in *; [discriminate|].
  destruct filePath as [|c f]; [discriminate|].
  unfold main. rewrite Hurls. unfold bind at 1. cbn [console_log].
  unfold bind at 1. unfold processUrlList. rewrite Hex. cbn [negb].
  unfold bind at 1. rewrite Hread. reflexivity.
Qed.

(** X30. An exception thrown during the walk is not caught by [main]: the
    run ends with it, with exit status 1, and neither [paths.txt] nor
    [CSPT_magun4.txt] is created. *)
Theorem main_walk_throws
    (fuel : nat) (argv : list jsstring) (dir dom message : jsstring)
    (w : world) :
  jsDir (parseArgs argv) = Some dir ->
  domain (parseArgs argv) = Some dom ->
  urlsFile (parseArgs argv) = None ->
  (forall w0, fst (walk fuel dir w0) = Thrown message) ->
  fst (run_main fuel argv w) = Thrown message
  /\ exit_status (fst (run_main fuel argv w)) = Some 1
  /\ written (snd (run_main fuel argv w)) = written w.
Proof.
  intros Hdir Hdom Hurls Hwalk.
  assert (exists w1, run_main fuel argv w = (Thrown message, w1)
                     /\ written w1 = written w) as (w1 & E & Hw1).
  { destruct (parseArgs_truthy argv) as ([Hd | Hd] & [Hm | Hm] & _);
      rewrite ?Hdir, ?Hdom in *; try discriminate.
    destruct dir as [|c d]; [discriminate|].
    destruct dom as [|c' dom]; [discriminate|].
    unfold main. rewrite Hurls, Hdir, Hdom.
    unfold bind at 1. cbn [console_log].
    unfold bind at 1. cbn [console_log].
    unfold bind at 1.
    match goal with
    | |- context [getAllJsFiles _ _ _ _ fuel (c :: d) ?w0] =>
        pose proof (Hwalk w0) as Hthrow;
        destruct (getAllJsFiles_quiet existsSync readdirSync
                    statSync_isDirectory path_join fuel (c :: d) w0)
          as (_ & Hwritten & _);
        destruct (getAllJsFiles existsSync readdirSync statSync_isDirectory
                    path_join fuel (c :: d) w0) as [o w1]
    end.
    cbn [fst snd written] in *. subst o. now exists w1. }
  rewrite E. repeat split. exact Hw1.
Qed.

(** In extraction mode, once the walk has returned, the run comes to
    [write_results] with the templates of the files and with nothing
    written yet. *)
Lemma main_extraction_run
    (fuel : nat) (argv : list jsstring) (dir dom : jsstring)
    (jsFiles : list jsstring) (w : world) :
  jsDir (parseArgs argv) = Some dir ->
  domain (parseArgs argv) = Some dom ->
  urlsFile (parseArgs argv) = None ->
  (forall w0, fst (walk fuel dir w0) = Done jsFiles) ->
  exists w2,
    run_main fuel argv w
    = write_results writeFileSync
        (collect (map (per_file readFileSync) jsFiles) []) dom w2
    /\ written w2 = written w.
Proof.
  intros Hdir Hdom Hurls Hwalk.
  destruct (parseArgs_truthy argv) as ([Hd | Hd] & [Hm | Hm] & _);
    rewrite ?Hdir, ?Hdom in *; try discriminate.
  destruct dir as [|c d]; [discriminate|].
  destruct dom as [|c' dom]; [discriminate|].
  unfold main. rewrite Hurls, Hdir, Hdom.
  unfold bind at 1. cbn [console_log].
  unfold bind at 1. cbn [console_log].
  unfold bind at 1.
  match goal with
  | |- context [getAllJsFiles _ _ _ _ fuel (c :: d) ?w0] =>
      pose proof (Hwalk w0) as Hdone;
      destruct (getAllJsFiles_quiet existsSync readdirSync
                  statSync_isDirectory path_join fuel (c :: d) w0)
        as (_ & Hw1 & _);
      destruct (getAllJsFiles existsSync readdirSync statSync_isDirectory
                  path_join fuel (c :: d) w0) as [o w1]
  end.
  cbn [fst snd written] in *. subst o.
  unfold bind at 1. cbn [console_log].
  unfold bind at 1.
  match goal with
  | |- context [scan_files _ _ jsFiles [] ?w0] =>
      destruct (scan_files_collect readFileSync path_basename jsFiles [] w0)
        as (w2 & -> & Hw2); cbn [written] in Hw2
  end.
  exists w2. split; [reflexivity | congruence].
Qed.

(** X24. In extraction mode, when the walk returns the files [jsFiles]:
    with no template collected, [main] returns and writes nothing;
    otherwise it writes [paths.txt] and then [CSPT_magun4.txt], and the
    first of the two writes that throws ends the run with this exception,
    leaving what was written before it. *)
Theorem main_extraction
    (fuel : nat) (argv : list jsstring) (dir dom : jsstring)
    (jsFiles : list jsstring) (w : world) :
  jsDir (parseArgs argv) = Some dir ->
  domain (parseArgs argv) = Some dom ->
  urlsFile (parseArgs argv) = None ->
  (forall w0, fst (walk fuel dir w0) = Done jsFiles) ->
  let allPaths := collect (map (per_file readFileSync) jsFiles) [] in
  let pathsContent := join [LF] (pathsArray_of allPaths) in
  let csptContent := join [LF] (csptUrls_of (pathsArray_of allPaths) dom) in
  fst (run_main fuel argv w)
  = (if length allPaths =? 0 then Done tt
     else match writeFileSync (u "paths.txt") pathsContent with
          | Err message => Thrown message
          | Ok _ =>
              match writeFileSync (u "CSPT_magun4.txt") csptContent with
              | Err message => Thrown message
              | Ok _ => Done tt
              end
          end)
  /\ written (snd (run_main fuel argv w))
     = written w ++
       (if length allPaths =? 0 then []
        else match writeFileSync (u "paths.txt") pathsContent with
             | Err _ => []
             | Ok _ =>
                 (u "paths.txt", pathsContent)
                 :: match writeFileSync (u "CSPT_magun4.txt") csptContent with
                    | Err _ => []
                    | Ok _ => [(u "CSPT_magun4.txt", csptContent)]
                    end
             end).
Proof.
  intros Hdir Hdom Hurls Hwalk allPaths pathsContent csptContent.
  destruct (main_extraction_run fuel argv dir dom jsFiles w Hdir Hdom Hurls Hwalk)
    as (w2 & -> & Hw2).
  destruct (write_results_written writeFileSync allPaths dom w2) as [E1 E2].
  fold allPaths. rewrite E1, E2, Hw2. split; reflexivity.
Qed.


End Endings.

Lemma getAllJsFiles_throws_from_fs_witness :
  exists d,
    below link_readdir link_stat join_slash (u "/srv/js") d
    /\ link_exists d = true
    /\ (link_readdir d = Err (u "ENOENT: no such file or directory, stat")
        \/ exists items item,
             link_readdir d = Ok items /\ In item items
             /\ link_stat (join_slash d item)
                = Err (u "ENOENT: no such file or directory, stat")).
Proof.
  exact (getAllJsFiles_throws_from_fs link_exists link_readdir link_stat
           join_slash 2 (u "/srv/js") world0).
Defined.


Lemma main_urls_file_unreadable_witness :
  main (fun _ => true) (fun _ => Err []) (fun _ => Err [])
    (fun _ => Err (u "EACCES: permission denied")) (fun _ _ => Ok tt)
    join_slash (fun p => p) (fun _ => None) 0 [u "-urls"; u "list.txt"] world0
  = (Thrown (u "EACCES: permission denied"),
     mkWorld [u "Processing URL list: list.txt"] [] []).
Proof.
  apply (main_urls_file_unreadable (fun _ => true) (fun _ => Err [])
           (fun _ => Err []) (fun _ => Err (u "EACCES: permission denied"))
           (fun _ _ => Ok tt) join_slash (fun p => p) (fun _ => None) 0
           [u "-urls"; u "list.txt"] (u "list.txt")
           (u "EACCES: permission denied") world0); reflexivity.
Defined.

Lemma main_walk_throws_witness :
  written
    (snd (main link_exists link_readdir link_stat (fun _ => Err [])
            (fun _ _ => Ok tt) join_slash (fun p => p) (fun _ => None) 2
            [u "-js"; u "/srv/js"; u "-d"; u "https://example.com"] world0))
  = [].
Proof.
  apply (main_walk_throws link_exists link_readdir link_stat (fun _ => Err [])
           (fun _ _ => Ok tt) join_slash (fun p => p) (fun _ => None) 2
           [u "-js"; u "/srv/js"; u "-d"; u "https://example.com"]
           (u "/srv/js") (u "https://example.com")
           (u "ENOENT: no such file or directory, stat") world0);
    reflexivity.
Defined.

(** A run in which [paths.txt] is written and the write of
    [CSPT_magun4.txt] throws. *)
Lemma main_extraction_witness :
  fst (main (fun _ => true) (fun _ => Ok [u "app.js"]) (fun _ => Ok false)
         (fun _ => Ok (u "get('/a/:b')"))
         (fun name _ =>
            if str_eqb name (u "paths.txt") then Ok tt
            else Err (u "EACCES: permission denied"))
         join_slash (fun p => p) (fun _ => None)
         2 [u "-js"; u "./src"; u "-d"; u "https://x.com"] world0)
  = Thrown (u "EACCES: permission denied")
  /\ written
       (snd (main (fun _ => true) (fun _ => Ok [u "app.js"]) (fun _ => Ok false)
               (fun _ => Ok (u "get('/a/:b')"))
               (fun name _ =>
                  if str_eqb name (u "paths.txt") then Ok tt
                  else Err (u "EACCES: permission denied"))
               join_slash (fun p => p) (fun _ => None)
               2 [u "-js"; u "./src"; u "-d"; u "https://x.com"] world0))
     = [(u "paths.txt", u "/a/:b")].
Proof.
  destruct (main_extraction (fun _ => true) (fun _ => Ok [u "app.js"])
              (fun _ => Ok false) (fun _ => Ok (u "get('/a/:b')"))
              (fun name _ =>
                 if str_eqb name (u "paths.txt") then Ok tt
                 else Err (u "EACCES: permission denied"))
              join_slash (fun p => p) (fun _ => None) 2
              [u "-js"; u "./src"; u "-d"; u "https://x.com"]
              (u "./src") (u "https://x.com") [u "./src/app.js"] world0
              eq_refl eq_refl eq_refl (fun _ => eq_refl)) as [E1 E2].
  rewrite E1, E2. split; vm_compute; reflexivity.
Defined.


